(** * DX12Engine, RHI command contexts: pooling, recording sessions, barriers

    A shallow embedding of [KAWAII/MiniKawaii/RHI/CommandContext.h] and of
    the translation unit that implements it.

    - [Module Pool] follows the C++ that is present: the context manager
      ([AllocateCommandContext], [FreeCommandContext]), the constructor,
      [Initialize], [Reset], [SetID] and [Begin].
    - [Module Interleaved] runs the same statements of the manager as
      atomic steps of several threads.
    - [Module Barriers] covers [TransitionResource],
      [FlushResourceBarriers], [Flush] and [Finish], which the header only
      declares; they are modelled from the written specification. *)

From Stdlib Require Import ZArith String List Lia Bool.
From stdpp Require Import base numbers list.
Import ListNotations.
Open Scope Z_scope.

(** ** Outcomes shared by both parts *)

(** The error taxonomy of the specification (section 7). *)
Inductive Error : Set :=
  | InvalidArgument
  | InvalidState
  | UnsupportedTransition
  | OutOfSpace
  | DeviceLost.

(** Ways in which a C++ call does not return normally.  [assert] is kept as
    written (a failed assertion aborts); subscripting a fixed-size array
    past its end, reading an object that was never initialised, following
    a pointer to no object and calling [front]/[pop] on an empty
    [std::queue] are undefined behaviour and are kept apart from reported
    errors. *)
Inductive fault : Set :=
  | AssertionFailure
  | IndexOutOfRange
  | IndeterminateRead
  | InvalidPointer
  | EmptyQueue
  | Raised (e : Error)  (* an error of the taxonomy, reported to the caller *).

Inductive outcome (A : Type) : Type :=
  | Ret (a : A)
  | Fault (f : fault).
Arguments Ret {A} a.
Arguments Fault {A} f.

Module Pool.

(** ** Data *)

(** [D3D12_COMMAND_LIST_TYPE] is a C enumeration of [d3d12.h]; a value of
    the type is an integer, and these are the four the pools are keyed by. *)
Definition D3D12_COMMAND_LIST_TYPE := Z.
Definition D3D12_COMMAND_LIST_TYPE_DIRECT : D3D12_COMMAND_LIST_TYPE := 0.
Definition D3D12_COMMAND_LIST_TYPE_BUNDLE : D3D12_COMMAND_LIST_TYPE := 1.
Definition D3D12_COMMAND_LIST_TYPE_COMPUTE : D3D12_COMMAND_LIST_TYPE := 2.
Definition D3D12_COMMAND_LIST_TYPE_COPY : D3D12_COMMAND_LIST_TYPE := 3.

(** [#define ContextPoolSize 4] and [#define AvailableContextSize 4]. *)
Definition ContextPoolSize : Z := 4.
Definition AvailableContextSize : Z := 4.

(** A C array of four elements, [T a[4]]. *)
Record array4 (T : Type) : Type := Array4 { slot0 : T; slot1 : T; slot2 : T; slot3 : T }.
Arguments Array4 {T} _ _ _ _.
Arguments slot0 {T} _.
Arguments slot1 {T} _.
Arguments slot2 {T} _.
Arguments slot3 {T} _.

(** [a[i]]: defined for the indices below [size], undefined behaviour
    elsewhere (there is no bounds check in the source). *)
Definition subscript {T} (size : Z) (a : array4 T) (i : Z) : outcome T :=
  if (0 <=? i) && (i <? size) then
    match i with
    | 0 => Ret (slot0 a)
    | 1 => Ret (slot1 a)
    | 2 => Ret (slot2 a)
    | 3 => Ret (slot3 a)
    | _ => Fault IndexOutOfRange
    end
  else Fault IndexOutOfRange.

(** [a[i] = v], for an index that [subscript] accepts. *)
Definition assign {T} (a : array4 T) (i : Z) (v : T) : array4 T :=
  match i with
  | 0 => Array4 v (slot1 a) (slot2 a) (slot3 a)
  | 1 => Array4 (slot0 a) v (slot2 a) (slot3 a)
  | 2 => Array4 (slot0 a) (slot1 a) v (slot3 a)
  | 3 => Array4 (slot0 a) (slot1 a) (slot2 a) v
  | _ => a
  end.

(** Addresses of [CommandContext] objects made by [new]; a nullable
    pointer to anything else ([ComPtr], allocator, pipeline state) is an
    optional handle, [None] being [nullptr]. *)
Definition addr := nat.
Definition handle := option nat.

(** A data member that the constructor may leave without a value. *)
Inductive cell (A : Type) : Type :=
  | Indeterminate
  | Holds (a : A).
Arguments Indeterminate {A}.
Arguments Holds {A} a.

(** The data members of [CommandContext] that the constructor,
    [Initialize], [Reset] and [SetID] read or write, with the barrier count
    and the bound pipeline state; the header spells the first [m_type]. *)
Record CommandContext : Type := {
  m_Type : D3D12_COMMAND_LIST_TYPE;
  m_CommandList : handle;
  m_CurrentAllocator : cell handle;
  m_numBarriersToFlush : cell Z;
  m_curPSO : handle;
  m_ID : string
}.

(** Calls of the private member functions, in the order they are made. *)
Inductive Call : Set :=
  | CallConstructor (a : addr)
  | CallInitialize (a : addr)
  | CallReset (a : addr).

(** The process: the objects made by [new] (an address is a position in
    [heap]), the two arrays of the manager singleton, the handles that
    [CommandListManager] has given out, and the calls made so far.  The
    header declares the manager as [ContextManager], with the arrays
    [m_ContextPool[ContextPoolSize]] and
    [m_AvailableContexts[AvailableContextSize]]; the member functions call
    them by the names used here. *)
Record Process : Type := {
  heap : list CommandContext;
  m_CommandContextPool : array4 (list addr);
  m_AvailableCommandContexts : array4 (list addr);
  listManager : nat;
  calls : list Call
}.

Definition startup : Process :=
  {| heap := [];
     m_CommandContextPool := Array4 [] [] [] [];
     m_AvailableCommandContexts := Array4 [] [] [] [];
     listManager := 0%nat;
     calls := [] |}.

(** ** A state and fault monad for the member functions *)

Definition M (A : Type) : Type := Process -> outcome (A * Process).

Definition ret {A} (a : A) : M A := fun p => Ret (a, p).

Definition bind {A B} (m : M A) (k : A -> M B) : M B :=
  fun p => match m p with
           | Ret (a, p') => k a p'
           | Fault f => Fault f
           end.

Definition abort {A} (f : fault) : M A := fun _ => Fault f.

Definition lift {A} (o : outcome A) : M A :=
  fun p => match o with Ret a => Ret (a, p) | Fault f => Fault f end.

Definition get : M Process := fun p => Ret (p, p).

Declare Scope cpp_scope.
Delimit Scope cpp_scope with cpp.
Notation "x <- m ; k" := (bind m (fun x => k))
  (at level 100, m at next level, k at level 200, right associativity) : cpp_scope.
Notation "m ;; k" := (bind m (fun _ => k))
  (at level 100, k at level 200, right associativity) : cpp_scope.
Open Scope cpp_scope.

(** [assert(b)]. *)
Definition assert (b : bool) : M unit :=
  if b then ret tt else abort AssertionFailure.

(** [*p] for reading and [*p = c] for writing. *)
Definition load (a : addr) : M CommandContext :=
  fun p => match heap p !! a with
           | Some c => Ret (c, p)
           | None => Fault InvalidPointer
           end.

Definition store (a : addr) (c : CommandContext) : M unit :=
  fun p => Ret (tt, {| heap := <[a := c]> (heap p);
                       m_CommandContextPool := m_CommandContextPool p;
                       m_AvailableCommandContexts := m_AvailableCommandContexts p;
                       listManager := listManager p;
                       calls := calls p |}).

Definition record (c : Call) : M unit :=
  fun p => Ret (tt, {| heap := heap p;
                       m_CommandContextPool := m_CommandContextPool p;
                       m_AvailableCommandContexts := m_AvailableCommandContexts p;
                       listManager := listManager p;
                       calls := calls p ++ [c] |}).

Definition set_pool (a : array4 (list addr)) : M unit :=
  fun p => Ret (tt, {| heap := heap p;
                       m_CommandContextPool := a;
                       m_AvailableCommandContexts := m_AvailableCommandContexts p;
                       listManager := listManager p;
                       calls := calls p |}).

Definition set_available (a : array4 (list addr)) : M unit :=
  fun p => Ret (tt, {| heap := heap p;
                       m_CommandContextPool := m_CommandContextPool p;
                       m_AvailableCommandContexts := a;
                       listManager := listManager p;
                       calls := calls p |}).

(** ** The member functions *)

(** [CommandContext::CommandContext(type) : m_Type(type),
    m_CommandList(nullptr)].  [m_curPSO] has the default member
    initialiser [nullptr] and [m_ID] is an empty string; the allocator
    pointer and the barrier count get no value. *)
Definition CommandContext_ctor (type : D3D12_COMMAND_LIST_TYPE) : CommandContext :=
  {| m_Type := type;
     m_CommandList := None;
     m_CurrentAllocator := Indeterminate;
     m_numBarriersToFlush := Indeterminate;
     m_curPSO := None;
     m_ID := EmptyString |}.

(** [new CommandContext(type)]: the object is placed at a fresh address. *)
Definition new_CommandContext (type : D3D12_COMMAND_LIST_TYPE) : M addr :=
  fun p => Ret (length (heap p),
                {| heap := heap p ++ [CommandContext_ctor type];
                   m_CommandContextPool := m_CommandContextPool p;
                   m_AvailableCommandContexts := m_AvailableCommandContexts p;
                   listManager := listManager p;
                   calls := calls p ++ [CallConstructor (length (heap p))] |}).

(** Modelled from the spec: [CommandListManager::CreateNewCommandList],
    whose definition is in another file of the repository.  Section 4.1:
    Initialize "creates the underlying command list and acquires a fresh
    allocator from the Allocator Pool"; both out-parameters receive a
    handle that was not given out before. *)
Definition CreateNewCommandList (type : D3D12_COMMAND_LIST_TYPE) : M (handle * handle) :=
  fun p => Ret ((Some (listManager p), Some (S (listManager p))),
                {| heap := heap p;
                   m_CommandContextPool := m_CommandContextPool p;
                   m_AvailableCommandContexts := m_AvailableCommandContexts p;
                   listManager := S (S (listManager p));
                   calls := calls p |}).

(** [void CommandContext::Initialize()]. *)
Definition Initialize (this : addr) : M unit :=
  record (CallInitialize this) ;;
  c <- load this ;
  out <- CreateNewCommandList (m_Type c) ;
  store this {| m_Type := m_Type c;
                m_CommandList := fst out;
                m_CurrentAllocator := Holds (snd out);
                m_numBarriersToFlush := m_numBarriersToFlush c;
                m_curPSO := m_curPSO c;
                m_ID := m_ID c |}.

(** [void CommandContext::Reset()]: one assertion and nothing else (the
    rest of the body is a TODO in the source).  [&&] is evaluated left to
    right, so the allocator pointer is read only when the command list is
    not null. *)
Definition Reset (this : addr) : M unit :=
  record (CallReset this) ;;
  c <- load this ;
  match m_CommandList c with
  | None => abort AssertionFailure
  | Some _ =>
      match m_CurrentAllocator c with
      | Indeterminate => abort IndeterminateRead
      | Holds None => ret tt
      | Holds (Some _) => abort AssertionFailure
      end
  end.

(** [void SetID(const std::wstring& ID) { m_ID = ID; }]. *)
Definition SetID (this : addr) (ID : string) : M unit :=
  c <- load this ;
  store this {| m_Type := m_Type c;
                m_CommandList := m_CommandList c;
                m_CurrentAllocator := m_CurrentAllocator c;
                m_numBarriersToFlush := m_numBarriersToFlush c;
                m_curPSO := m_curPSO c;
                m_ID := ID |}.

(** [CommandContext* CommandContextManager::AllocateCommandContext(type)].
    [context] is an address, so [assert(context != nullptr)] holds by
    typing: [new] does not return null and the queue holds addresses that
    [FreeCommandContext] has asserted to be non-null. *)
Definition AllocateCommandContext (type : D3D12_COMMAND_LIST_TYPE) : M addr :=
  p <- get ;
  avaliableCommandContexts <- lift (subscript AvailableContextSize (m_AvailableCommandContexts p) type) ;
  context <-
    match avaliableCommandContexts with
    | [] =>
        context <- new_CommandContext type ;
        p1 <- get ;
        pool <- lift (subscript ContextPoolSize (m_CommandContextPool p1) type) ;
        set_pool (assign (m_CommandContextPool p1) type (pool ++ [context])) ;;
        Initialize context ;;
        ret context
    | front :: rest =>
        set_available (assign (m_AvailableCommandContexts p) type rest) ;;
        Reset front ;;
        ret front
    end ;
  c <- load context ;
  assert (m_Type c =? type) ;;
  ret context.

(** [void CommandContextManager::FreeCommandContext(usedContext)]. *)
Definition FreeCommandContext (usedContext : option addr) : M unit :=
  match usedContext with
  | None => abort AssertionFailure
  | Some a =>
      c <- load a ;
      p <- get ;
      q <- lift (subscript AvailableContextSize (m_AvailableCommandContexts p) (m_Type c)) ;
      set_available (assign (m_AvailableCommandContexts p) (m_Type c) (q ++ [a]))
  end.

(** [CommandContext& CommandContext::Begin(const std::wstring ID)]. *)
Definition Begin (ID : string) : M addr :=
  newContext <- AllocateCommandContext D3D12_COMMAND_LIST_TYPE_DIRECT ;
  SetID newContext ID ;;
  ret newContext.

(** ** Reading the process *)

(** The queue types that key the four pools. *)
Definition recognized (type : D3D12_COMMAND_LIST_TYPE) : Prop :=
  type = D3D12_COMMAND_LIST_TYPE_DIRECT \/ type = D3D12_COMMAND_LIST_TYPE_BUNDLE \/
  type = D3D12_COMMAND_LIST_TYPE_COMPUTE \/ type = D3D12_COMMAND_LIST_TYPE_COPY.

Definition element {T} (a : array4 T) (i : Z) : T :=
  match i with
  | 0 => slot0 a
  | 1 => slot1 a
  | 2 => slot2 a
  | _ => slot3 a
  end.

(** The idle queue and the owning pool of a queue type. *)
Definition idle (type : D3D12_COMMAND_LIST_TYPE) (p : Process) : list addr :=
  element (m_AvailableCommandContexts p) type.
Definition owned (type : D3D12_COMMAND_LIST_TYPE) (p : Process) : list addr :=
  element (m_CommandContextPool p) type.

(** What [Reset] asserts of the context it is called on. *)
Definition resettable (c : CommandContext) : Prop :=
  m_CommandList c <> None /\ m_CurrentAllocator c = Holds None.

(** The context that [Initialize] leaves behind the constructor. *)
Definition initialized (type : D3D12_COMMAND_LIST_TYPE) (p : Process) : CommandContext :=
  {| m_Type := type;
     m_CommandList := Some (listManager p);
     m_CurrentAllocator := Holds (Some (S (listManager p)));
     m_numBarriersToFlush := Indeterminate;
     m_curPSO := None;
     m_ID := EmptyString |}.

(** The process after the branch that constructs a context ... *)
Definition after_new (type : D3D12_COMMAND_LIST_TYPE) (p : Process) : Process :=
  {| heap := heap p ++ [initialized type p];
     m_CommandContextPool :=
       assign (m_CommandContextPool p) type (owned type p ++ [length (heap p)]);
     m_AvailableCommandContexts := m_AvailableCommandContexts p;
     listManager := S (S (listManager p));
     calls := calls p ++ [CallConstructor (length (heap p)); CallInitialize (length (heap p))] |}.

(** ... and after the branch that reuses the front of the idle queue. *)
Definition after_reuse (type : D3D12_COMMAND_LIST_TYPE) (front : addr) (rest : list addr)
    (p : Process) : Process :=
  {| heap := heap p;
     m_CommandContextPool := m_CommandContextPool p;
     m_AvailableCommandContexts := assign (m_AvailableCommandContexts p) type rest;
     listManager := listManager p;
     calls := calls p ++ [CallReset front] |}.

Definition after_free (a : addr) (type : D3D12_COMMAND_LIST_TYPE) (p : Process) : Process :=
  {| heap := heap p;
     m_CommandContextPool := m_CommandContextPool p;
     m_AvailableCommandContexts :=
       assign (m_AvailableCommandContexts p) type (idle type p ++ [a]);
     listManager := listManager p;
     calls := calls p |}.

(** The process after [SetID]. *)
Definition after_SetID (a : addr) (ID : string) (c : CommandContext) (p : Process) : Process :=
  {| heap := <[a := {| m_Type := m_Type c;
                       m_CommandList := m_CommandList c;
                       m_CurrentAllocator := m_CurrentAllocator c;
                       m_numBarriersToFlush := m_numBarriersToFlush c;
                       m_curPSO := m_curPSO c;
                       m_ID := ID |}]> (heap p);
     m_CommandContextPool := m_CommandContextPool p;
     m_AvailableCommandContexts := m_AvailableCommandContexts p;
     listManager := listManager p;
     calls := calls p |}.

(** ** Serial use of the pool *)

(** A holder of a context records into it, binds pipeline states, hands
    its allocator back: it may change every member but [m_Type], which
    only the constructor sets. *)
Definition after_use (a : addr) (c' : CommandContext) (p : Process) : Process :=
  {| heap := <[a := c']> (heap p);
     m_CommandContextPool := m_CommandContextPool p;
     m_AvailableCommandContexts := m_AvailableCommandContexts p;
     listManager := listManager p;
     calls := calls p |}.

(** The processes that calls made one after the other lead to, each with
    the contexts handed out and not yet freed.  [FreeCommandContext] is
    called by a holder, on the context it holds. *)
Inductive serial : Process -> list addr -> Prop :=
  | serial_startup :
      serial startup []
  | serial_Allocate p held type a p' :
      serial p held ->
      AllocateCommandContext type p = Ret (a, p') ->
      serial p' (a :: held)
  | serial_Begin p held ID a p' :
      serial p held ->
      Begin ID p = Ret (a, p') ->
      serial p' (a :: held)
  | serial_use p held a c c' :
      serial p held ->
      (a ∈ held) -> heap p !! a = Some c -> m_Type c' = m_Type c ->
      serial (after_use a c' p) held
  | serial_Free p held1 a held2 p' :
      serial p (held1 ++ a :: held2) ->
      FreeCommandContext (Some a) p = Ret (tt, p') ->
      serial p' (held1 ++ held2).

(** What serial use maintains. *)
Record consistent (p : Process) (held : list addr) : Prop := {
  idle_NoDup : forall type, recognized type -> NoDup (idle type p);
  held_NoDup : NoDup held;
  idle_typed : forall type a, recognized type -> a ∈ idle type p ->
                 (a ∉ held) /\ exists c, heap p !! a = Some c /\ m_Type c = type;
  held_typed : forall a, a ∈ held ->
                 exists c, heap p !! a = Some c /\ recognized (m_Type c);
  heap_owned : forall a c, heap p !! a = Some c ->
                 recognized (m_Type c) /\ a ∈ owned (m_Type c) p
}.

(** ** Processes used as examples *)

(** One graphics context, as [Initialize] leaves it: command list created,
    allocator attached. *)
Definition recording : Process := after_new D3D12_COMMAND_LIST_TYPE_DIRECT startup.

(** A context whose submission is over: the command list exists and the
    allocator has been handed back (the pointer is null). *)
Definition finished (type : D3D12_COMMAND_LIST_TYPE) (list : nat) : CommandContext :=
  {| m_Type := type;
     m_CommandList := Some list;
     m_CurrentAllocator := Holds None;
     m_numBarriersToFlush := Holds 3;
     m_curPSO := Some 7%nat;
     m_ID := "shadow pass" |}.

(** Two finished graphics contexts, none of them idle ... *)
Definition two_held : Process :=
  {| heap := [finished D3D12_COMMAND_LIST_TYPE_DIRECT 0; finished D3D12_COMMAND_LIST_TYPE_DIRECT 2];
     m_CommandContextPool := Array4 [0%nat; 1%nat] [] [] [];
     m_AvailableCommandContexts := Array4 [] [] [] [];
     listManager := 4%nat;
     calls := [CallConstructor 0%nat; CallInitialize 0%nat; CallConstructor 1%nat; CallInitialize 1%nat] |}.

(** ... and the same two after both were freed. *)
Definition two_idle : Process :=
  {| heap := heap two_held;
     m_CommandContextPool := m_CommandContextPool two_held;
     m_AvailableCommandContexts := Array4 [0%nat; 1%nat] [] [] [];
     listManager := 4%nat;
     calls := calls two_held |}.

(** ** Accounting for contexts and calls *)

(** The contexts that were constructed, that [Initialize] was called on
    and that [Reset] was called on, in the order of the calls. *)
Definition constructions (cs : list Call) : list addr :=
  flat_map (fun c => match c with CallConstructor a => [a] | _ => [] end) cs.
Definition initializations (cs : list Call) : list addr :=
  flat_map (fun c => match c with CallInitialize a => [a] | _ => [] end) cs.
Definition resets (cs : list Call) : list addr :=
  flat_map (fun c => match c with CallReset a => [a] | _ => [] end) cs.

(** In a record of calls, every call of [Reset] is on a context that
    [Initialize] was called on earlier ([inits] lists the contexts
    initialised before the record starts). *)
Fixpoint initialized_before_reset (inits : list addr) (cs : list Call) : Prop :=
  match cs with
  | [] => True
  | CallConstructor _ :: cs' => initialized_before_reset inits cs'
  | CallInitialize a :: cs' => initialized_before_reset (a :: inits) cs'
  | CallReset a :: cs' => a ∈ inits /\ initialized_before_reset inits cs'
  end.

(** Every context is somewhere: handed out or waiting in the idle queue of
    its type; the owning pools list each context once, under its type; and
    the constructor and [Initialize] ran once for each context, in the
    order of the addresses, before any [Reset] of it. *)
Record accounted (p : Process) (held : list addr) : Prop := {
  all_placed : forall a c, heap p !! a = Some c ->
                 a ∈ held \/ a ∈ idle (m_Type c) p;
  owned_NoDup : forall type, recognized type -> NoDup (owned type p);
  owned_typed : forall type a, recognized type -> a ∈ owned type p ->
                  exists c, heap p !! a = Some c /\ m_Type c = type;
  constructed_once : constructions (calls p) = seq 0 (length (heap p));
  initialized_once : initializations (calls p) = seq 0 (length (heap p));
  resets_exist : forall a, a ∈ resets (calls p) -> (a < length (heap p))%nat;
  calls_ordered : initialized_before_reset [] (calls p)
}.

(** ** Callers that free and allocate in a row *)

(** [FreeCommandContext] on each context of a list, in order. *)
Fixpoint free_all (l : list addr) : M unit :=
  match l with
  | [] => ret tt
  | a :: l' => FreeCommandContext (Some a) ;; free_all l'
  end.

(** [n] calls of [AllocateCommandContext(type)]; the result lists the
    contexts in the order they were returned. *)
Fixpoint allocate_n (type : D3D12_COMMAND_LIST_TYPE) (n : nat) : M (list addr) :=
  match n with
  | O => ret []
  | S n' =>
      a <- AllocateCommandContext type ;
      l <- allocate_n type n' ;
      ret (a :: l)
  end.

(** A context of the heap, of the given type, that [Reset] accepts. *)
Definition reusable (type : D3D12_COMMAND_LIST_TYPE) (p : Process) (a : addr) : Prop :=
  exists c, heap p !! a = Some c /\ m_Type c = type /\ resettable c.

End Pool.

(** * The manager called from several threads

    The functions of the manager take no lock.  Here each statement of
    [AllocateCommandContext] is one atomic step of the thread that runs
    it, and a schedule says which thread steps next; [Initialize], [Reset]
    and the whole of [FreeCommandContext] are taken as single steps. *)

Module Interleaved.
Import Pool.

(** Where a thread is in its call, with the local [context] once it is set. *)
Inductive Statement : Set :=
  | BindQueue (type : D3D12_COMMAND_LIST_TYPE)
      (* auto& avaliableCommandContexts = m_AvailableCommandContexts[type]; *)
  | TestEmpty (type : D3D12_COMMAND_LIST_TYPE)
      (* if (avaliableCommandContexts.empty()) *)
  | New (type : D3D12_COMMAND_LIST_TYPE)
      (* context = new CommandContext(type); *)
  | EmplaceBack (type : D3D12_COMMAND_LIST_TYPE) (context : addr)
      (* m_CommandContextPool[type].emplace_back(context); *)
  | AtInitialize (type : D3D12_COMMAND_LIST_TYPE) (context : addr)
      (* context->Initialize(); *)
  | Front (type : D3D12_COMMAND_LIST_TYPE)
      (* context = avaliableCommandContexts.front(); *)
  | Pop (type : D3D12_COMMAND_LIST_TYPE) (context : addr)
      (* avaliableCommandContexts.pop(); *)
  | AtReset (type : D3D12_COMMAND_LIST_TYPE) (context : addr)
      (* context->Reset(); *)
  | Asserts (type : D3D12_COMMAND_LIST_TYPE) (context : addr)
      (* assert(context != nullptr); assert(context->m_Type == type); *)
  | Received (context : addr)
      (* return context; the caller has the context *)
  | CallFree (usedContext : option addr)
      (* FreeCommandContext(usedContext) *)
  | Freed.

(** One step of a thread.  The reference bound at the first statement
    names the shared queue, so every later statement sees the queue as the
    other threads have left it. *)
Definition step (s : Statement) : M Statement :=
  match s with
  | BindQueue type =>
      p <- get ;
      _ <- lift (subscript AvailableContextSize (m_AvailableCommandContexts p) type) ;
      ret (TestEmpty type)
  | TestEmpty type =>
      p <- get ;
      match idle type p with
      | [] => ret (New type)
      | _ :: _ => ret (Front type)
      end
  | New type =>
      context <- new_CommandContext type ;
      ret (EmplaceBack type context)
  | EmplaceBack type context =>
      p <- get ;
      pool <- lift (subscript ContextPoolSize (m_CommandContextPool p) type) ;
      set_pool (assign (m_CommandContextPool p) type (pool ++ [context])) ;;
      ret (AtInitialize type context)
  | AtInitialize type context =>
      Initialize context ;;
      ret (Asserts type context)
  | Front type =>
      p <- get ;
      match idle type p with
      | [] => abort EmptyQueue
      | front :: _ => ret (Pop type front)
      end
  | Pop type context =>
      p <- get ;
      match idle type p with
      | [] => abort EmptyQueue
      | _ :: rest =>
          set_available (assign (m_AvailableCommandContexts p) type rest) ;;
          ret (AtReset type context)
      end
  | AtReset type context =>
      Reset context ;;
      ret (Asserts type context)
  | Asserts type context =>
      c <- load context ;
      assert (m_Type c =? type) ;;
      ret (Received context)
  | Received context => ret (Received context)
  | CallFree usedContext =>
      FreeCommandContext usedContext ;;
      ret Freed
  | Freed => ret Freed
  end.

(** A thread running alone for [n] steps. *)
Fixpoint alone (n : nat) (s : Statement) : M Statement :=
  match n with
  | O => ret s
  | S n' => s' <- step s ; alone n' s'
  end.

(** The threads of the process stepping as the schedule says: each entry
    of the schedule is the number of the thread that makes the next step. *)
Fixpoint exec (schedule : list nat) (threads : list Statement) : M (list Statement) :=
  match schedule with
  | [] => ret threads
  | t :: schedule' =>
      match threads !! t with
      | None => exec schedule' threads
      | Some s => s' <- step s ; exec schedule' (<[t := s']> threads)
      end
  end.

(** No context is in the hands of two threads at once. *)
Definition exclusive (threads : list Statement) : Prop :=
  forall i j a, i <> j ->
    threads !! i = Some (Received a) -> threads !! j = Some (Received a) -> False.

(** Exclusive hand-out: whatever the schedule, threads that call
    [AllocateCommandContext] on a process that serial use has led to, with
    no context handed out, never receive the same context. *)
Definition hands_out_exclusively : Prop :=
  forall p types schedule threads' p',
    serial p [] ->
    exec schedule (BindQueue <$> types) p = Ret (threads', p') ->
    exclusive threads'.

(** Two threads ask for a graphics context; both read the front of the
    idle queue before either pops it. *)
Definition both_read_front : list nat :=
  [0; 0; 0; 1; 1; 1; 0; 1; 0; 1; 0; 1]%nat.

End Interleaved.

(** * Resource state transitions, barrier batching and submission

    The header declares [TransitionResource], [FlushResourceBarriers],
    [Flush] and [Finish] and gives them no body; of this part the source
    has the members [m_ResourceBarrierBuffer[16]] and
    [m_numBarriersToFlush] and the macro
    [VALID_COMPUTE_QUEUE_RESOURCE_STATES].  The functions are modelled
    from sections 3, 4.2 and 4.3 of the specification. *)

Module Barriers.

(** ** Data *)

(** [D3D12_RESOURCE_STATES] is a bit mask of [d3d12.h]. *)
Definition D3D12_RESOURCE_STATES := Z.
Definition D3D12_RESOURCE_STATE_COMMON : D3D12_RESOURCE_STATES := 0x0.
Definition D3D12_RESOURCE_STATE_RENDER_TARGET : D3D12_RESOURCE_STATES := 0x4.
Definition D3D12_RESOURCE_STATE_UNORDERED_ACCESS : D3D12_RESOURCE_STATES := 0x8.
Definition D3D12_RESOURCE_STATE_DEPTH_WRITE : D3D12_RESOURCE_STATES := 0x10.
Definition D3D12_RESOURCE_STATE_NON_PIXEL_SHADER_RESOURCE : D3D12_RESOURCE_STATES := 0x40.
Definition D3D12_RESOURCE_STATE_PIXEL_SHADER_RESOURCE : D3D12_RESOURCE_STATES := 0x80.
Definition D3D12_RESOURCE_STATE_COPY_DEST : D3D12_RESOURCE_STATES := 0x400.
Definition D3D12_RESOURCE_STATE_COPY_SOURCE : D3D12_RESOURCE_STATES := 0x800.

(** The macro of the header:
    [( UNORDERED_ACCESS | NON_PIXEL_SHADER_RESOURCE | COPY_DEST | COPY_SOURCE )]. *)
Definition VALID_COMPUTE_QUEUE_RESOURCE_STATES : D3D12_RESOURCE_STATES :=
  Z.lor (Z.lor (Z.lor D3D12_RESOURCE_STATE_UNORDERED_ACCESS
                      D3D12_RESOURCE_STATE_NON_PIXEL_SHADER_RESOURCE)
               D3D12_RESOURCE_STATE_COPY_DEST)
        D3D12_RESOURCE_STATE_COPY_SOURCE.

(** Modelled from the spec: the queue type of a recording context, section
    3: "QueueType: enum {Graphics, Compute, Copy, Bundle}". *)
Inductive QueueType : Set := Graphics | Compute | Copy | Bundle.

#[global] Instance QueueType_eq_dec : EqDecision QueueType.
Proof. intros x y. unfold Decision. decide equality. Defined.

(** Modelled from the spec: the entries of the barrier buffer
    ([D3D12_RESOURCE_BARRIER] of [d3d12.h] in the header), section 3:
    "ResourceBarrier: {resource, fromState, toState, mode: {Full,
    BeginSplit, EndSplit}}"; a resource is named by a number. *)
Inductive BarrierMode : Set := Full | BeginSplit | EndSplit.

Record ResourceBarrier : Set := {
  resource : nat;
  fromState : D3D12_RESOURCE_STATES;
  toState : D3D12_RESOURCE_STATES;
  mode : BarrierMode
}.

(** Modelled from the spec: [GpuResource], declared in another file of the
    repository, section 3: "GpuResource: {authoritativeState,
    transitioningState: optional state set only while a split barrier is
    open}".  The comment above [TransitionResource] in the header calls
    the two members [m_UsageState] and [m_TransitionState]. *)
Record GpuResource : Set := {
  authoritativeState : D3D12_RESOURCE_STATES;
  transitioningState : option D3D12_RESOURCE_STATES
}.

(** "Fixed 16-entry buffer capacity"; [m_ResourceBarrierBuffer[16]]. *)
Definition capacity : nat := 16.

(** Modelled from the spec: the recording context of section 3, with what
    its barrier operations read and write: its queue type, whether a
    recording session is open, the pending barriers in append order (the
    first [m_numBarriersToFlush] entries of the array), the resources it
    refers to, and the batches it has submitted so far, oldest first. *)
Record Recording : Type := {
  queueType : QueueType;
  isRecording : bool;
  barrierBuffer : list ResourceBarrier;
  resources : nat -> GpuResource;
  submitted : list (list ResourceBarrier)
}.

Definition pendingBarrierCount (w : Recording) : nat := length (barrierBuffer w).

(** Every barrier emitted so far, submitted or pending, in order. *)
Definition history (w : Recording) : list ResourceBarrier :=
  concat (submitted w) ++ barrierBuffer w.

(** The target of the split barrier that is open on [r] after the
    barriers [bs], if one is. *)
Definition after_barrier (r : nat) (open : option D3D12_RESOURCE_STATES) (b : ResourceBarrier)
    : option D3D12_RESOURCE_STATES :=
  if Nat.eqb (resource b) r then
    match mode b with
    | BeginSplit => Some (toState b)
    | EndSplit => None
    | Full => open
    end
  else open.

Definition open_split (r : nat) (bs : list ResourceBarrier) : option D3D12_RESOURCE_STATES :=
  fold_left (after_barrier r) bs None.

(** "[transitioningState] is set only between a BeginSplit barrier and its
    matching EndSplit for the same resource". *)
Definition split_tracked (w : Recording) : Prop :=
  forall r t, transitioningState (resources w r) = Some t ->
              open_split r (history w) = Some t.

(** ** Operations *)

Definition set_resource (r : nat) (g : GpuResource) (w : Recording) : Recording :=
  {| queueType := queueType w;
     isRecording := isRecording w;
     barrierBuffer := barrierBuffer w;
     resources := fun r' => if Nat.eqb r' r then g else resources w r';
     submitted := submitted w |}.

Definition append (b : ResourceBarrier) (w : Recording) : Recording :=
  {| queueType := queueType w;
     isRecording := isRecording w;
     barrierBuffer := barrierBuffer w ++ [b];
     resources := resources w;
     submitted := submitted w |}.

(** Modelled from the spec: [FlushResourceBarriers], declared in the
    header without a body.  Section 4.3: "all buffered barriers are
    submitted as a single batched synchronization call and the buffer is
    cleared". *)
Definition FlushResourceBarriers (w : Recording) : Recording :=
  {| queueType := queueType w;
     isRecording := isRecording w;
     barrierBuffer := [];
     resources := resources w;
     submitted := submitted w ++ [barrierBuffer w] |}.

Definition flush_if (b : bool) (w : Recording) : Recording :=
  if b then FlushResourceBarriers w else w.

Section Transition.

(** The states that are legal for a queue type; section 4.3 gives
    examples and no table, so the operations take it as a parameter. *)
Variable legal : QueueType -> D3D12_RESOURCE_STATES -> bool.

(** Modelled from the spec: [TransitionResource], declared in the header
    without a body.  Section 4.3, in its order: the failure on a state
    that is illegal for the queue type, which leaves everything as it
    was; step 1, the EndSplit entry for a resource whose open split has
    the requested target; step 2, the no-op; step 3, the Full barrier.
    The flushes of step 3: before the append, when the append would exceed
    the capacity or [flushImmediate] is set (the worked examples of
    section 8 leave the barrier of a call with the default flag in the
    buffer, so that flush comes before the append); after the append,
    when the call has filled the buffer.  Step 1 flushes only to make
    room (section 7: overflow "is silently resolved by an internal
    flush"). *)
Definition TransitionResource (r : nat) (newState : D3D12_RESOURCE_STATES)
    (flushImmediate : bool) (w : Recording) : option Error * Recording :=
  if negb (legal (queueType w) newState) then (Some UnsupportedTransition, w)
  else
    let g := resources w r in
    let full_barrier :=
      let w1 := flush_if (Nat.leb capacity (pendingBarrierCount w) || flushImmediate) w in
      let w2 := append {| resource := r; fromState := authoritativeState g;
                          toState := newState; mode := Full |} w1 in
      let w3 := set_resource r {| authoritativeState := newState;
                                  transitioningState := transitioningState g |} w2 in
      (None, flush_if (Nat.eqb (pendingBarrierCount w3) capacity) w3) in
    match transitioningState g with
    | Some t =>
        if t =? newState then
          let w1 := flush_if (Nat.leb capacity (pendingBarrierCount w)) w in
          let w2 := append {| resource := r; fromState := authoritativeState g;
                              toState := newState; mode := EndSplit |} w1 in
          (None, set_resource r {| authoritativeState := newState;
                                   transitioningState := None |} w2)
        else full_barrier
    | None =>
        if authoritativeState g =? newState then (None, w) else full_barrier
    end.

(** The other placement that the sentence on flushing allows: the flush
    for [flushImmediate] after the append.  It is kept only to compare
    the two placements on the worked example of section 8. *)
Definition TransitionResource_flushing_last (r : nat) (newState : D3D12_RESOURCE_STATES)
    (flushImmediate : bool) (w : Recording) : option Error * Recording :=
  if negb (legal (queueType w) newState) then (Some UnsupportedTransition, w)
  else
    let g := resources w r in
    let full_barrier :=
      let w1 := flush_if (Nat.leb capacity (pendingBarrierCount w)) w in
      let w2 := append {| resource := r; fromState := authoritativeState g;
                          toState := newState; mode := Full |} w1 in
      let w3 := set_resource r {| authoritativeState := newState;
                                  transitioningState := transitioningState g |} w2 in
      (None, flush_if (Nat.eqb (pendingBarrierCount w3) capacity || flushImmediate) w3) in
    match transitioningState g with
    | Some t =>
        if t =? newState then
          let w1 := flush_if (Nat.leb capacity (pendingBarrierCount w)) w in
          let w2 := append {| resource := r; fromState := authoritativeState g;
                              toState := newState; mode := EndSplit |} w1 in
          (None, set_resource r {| authoritativeState := newState;
                                   transitioningState := None |} w2)
        else full_barrier
    | None =>
        if authoritativeState g =? newState then (None, w) else full_barrier
    end.

(** A sequence of calls on one context, in order; a call that fails ends
    it ("programmer-contract violations fail fast"). *)
Fixpoint transitions (calls : list (nat * D3D12_RESOURCE_STATES * bool)) (w : Recording)
    : option Error * Recording :=
  match calls with
  | [] => (None, w)
  | (r, newState, flushImmediate) :: calls' =>
      match TransitionResource r newState flushImmediate w with
      | (None, w') => transitions calls' w'
      | (Some e, w') => (Some e, w')
      end
  end.

End Transition.

(** The rules used in the examples: the compute queue takes the states
    inside the mask of the header, the copy queue the copy-source and
    copy-destination states; the specification restricts neither the
    graphics queue nor bundles by an example. *)
Definition example_rules (q : QueueType) (s : D3D12_RESOURCE_STATES) : bool :=
  match q with
  | Graphics | Bundle => true
  | Compute => Z.land s VALID_COMPUTE_QUEUE_RESOURCE_STATES =? s
  | Copy => Z.land s (Z.lor D3D12_RESOURCE_STATE_COPY_DEST D3D12_RESOURCE_STATE_COPY_SOURCE) =? s
  end.

(** ** Submission *)

(** A fence value is the [uint64_t] that [Flush] and [Finish] are declared
    to return: a number below [2 ^ 64], with unsigned arithmetic modulo
    [2 ^ 64]. *)
Definition uint64_modulus : N := 2 ^ 64.
Definition uint64_succ (n : N) : N := (N.succ n mod uint64_modulus)%N.

(** One queue per queue type, each with the last fence value it gave (a
    [uint64_t]). *)
Definition Queues := QueueType -> N.

(** Modelled from the spec: the Queue collaborator of section 6,
    "submit(commandList) -> fenceValue", the fence being "a monotonically
    increasing counter" (glossary): a submission gets the value after the
    last one of its queue.  The counter has the width of the value that
    [Flush] and [Finish] return, so after [2 ^ 64 - 1] it is back at 0. *)
Definition submit (q : QueueType) (qs : Queues) : N * Queues :=
  let fence := uint64_succ (qs q) in
  (fence, fun q' => if decide (q' = q) then fence else qs q').

(** Modelled from the spec: [Flush], declared in the header without a
    body.  Section 4.2: it "implicitly calls FlushResourceBarriers,
    submits all commands recorded so far to the owning queue, obtains a
    monotonically increasing fence value for this submission" and keeps
    the session open.  Waiting for the fence changes nothing here. *)
Definition Flush (wait : bool) (qs : Queues) (w : Recording) : N * Queues * Recording :=
  let (fence, qs') := submit (queueType w) qs in
  (fence, qs', FlushResourceBarriers w).

(** Modelled from the spec: [Finish], declared in the header without a
    body.  Section 4.2: it "implicitly flushes remaining barriers,
    submits final commands", ends the session and returns "the same fence
    semantics as Flush"; called out of order it is an [InvalidState]
    error (section 7).  The return of the context and of its allocator to
    their pools is not part of this record. *)
Definition Finish (wait releaseDynamic : bool) (qs : Queues) (w : Recording)
    : outcome (N * Queues * Recording) :=
  if isRecording w then
    let (fence, qs') := submit (queueType w) qs in
    let w' := FlushResourceBarriers w in
    Ret (fence, qs', {| queueType := queueType w';
                        isRecording := false;
                        barrierBuffer := barrierBuffer w';
                        resources := resources w';
                        submitted := submitted w' |})
  else Fault (Raised InvalidState).




(** ** Contexts used as examples *)

Definition at_rest (s : D3D12_RESOURCE_STATES) : GpuResource :=
  {| authoritativeState := s; transitioningState := None |}.

(** A context of the given queue type with nothing pending, every
    resource in the given state. *)
Definition fresh (q : QueueType) (s : D3D12_RESOURCE_STATES) : Recording :=
  {| queueType := q;
     isRecording := true;
     barrierBuffer := [];
     resources := fun _ => at_rest s;
     submitted := [] |}.



(** Sixteen pending barriers: resources 0 to 15, each taken from the
    common state to a copy destination. *)
Definition sixteen : list ResourceBarrier :=
  map (fun r => {| resource := r; fromState := D3D12_RESOURCE_STATE_COMMON;
                   toState := D3D12_RESOURCE_STATE_COPY_DEST; mode := Full |})
      (seq 0 16).

Definition full_buffer : Recording :=
  {| queueType := Graphics;
     isRecording := true;
     barrierBuffer := sixteen;
     resources := fun r => at_rest (if Nat.ltb r 16 then D3D12_RESOURCE_STATE_COPY_DEST
                                    else D3D12_RESOURCE_STATE_COMMON);
     submitted := [] |}.

(** Resource 5 in the middle of a split transition to a render target. *)
Definition split_open_on_5 : Recording :=
  {| queueType := Graphics;
     isRecording := true;
     barrierBuffer := [{| resource := 5; fromState := D3D12_RESOURCE_STATE_COMMON;
                          toState := D3D12_RESOURCE_STATE_RENDER_TARGET;
                          mode := BeginSplit |}];
     resources := fun r => if Nat.eqb r 5
                           then {| authoritativeState := D3D12_RESOURCE_STATE_COMMON;
                                   transitioningState := Some D3D12_RESOURCE_STATE_RENDER_TARGET |}
                           else at_rest D3D12_RESOURCE_STATE_COMMON;
     submitted := [] |}.

End Barriers.

(** * Facts about the pool *)

Module PoolFacts.
Import Pool.

(** ** Arrays *)

Lemma recognized_range type : recognized type <-> 0 <= type < 4.
Proof.
  unfold recognized, D3D12_COMMAND_LIST_TYPE_DIRECT, D3D12_COMMAND_LIST_TYPE_BUNDLE,
    D3D12_COMMAND_LIST_TYPE_COMPUTE, D3D12_COMMAND_LIST_TYPE_COPY.
  lia.
Qed.

Ltac each_type H :=
  let H' := fresh in
  pose proof H as H'; unfold recognized, D3D12_COMMAND_LIST_TYPE_DIRECT,
    D3D12_COMMAND_LIST_TYPE_BUNDLE, D3D12_COMMAND_LIST_TYPE_COMPUTE,
    D3D12_COMMAND_LIST_TYPE_COPY in H';
  destruct H' as [-> | [-> | [-> | ->]]].

Lemma subscript_recognized {T} (a : array4 T) type :
  recognized type -> subscript 4 a type = Ret (element a type).
Proof. intros H. each_type H; reflexivity. Qed.

Lemma subscript_unrecognized {T} (a : array4 T) type :
  ~ recognized type -> subscript 4 a type = Fault IndexOutOfRange.
Proof.
  rewrite recognized_range. intros H. unfold subscript.
  destruct (0 <=? type) eqn:E1; destruct (type <? 4) eqn:E2; simpl; try reflexivity.
  apply Z.leb_le in E1. apply Z.ltb_lt in E2. lia.
Qed.

Lemma subscript_Ret {T} (a : array4 T) type v :
  subscript 4 a type = Ret v -> recognized type /\ v = element a type.
Proof.
  intros H. destruct (decide (0 <= type < 4)) as [Hr | Hr].
  - apply recognized_range in Hr. rewrite subscript_recognized in H by assumption.
    split; [assumption | congruence].
  - rewrite subscript_unrecognized in H; [discriminate|]. now rewrite recognized_range.
Qed.

Lemma element_assign_eq {T} (a : array4 T) type v :
  recognized type -> element (assign a type v) type = v.
Proof. intros H. each_type H; reflexivity. Qed.

Lemma element_assign_ne {T} (a : array4 T) type type' v :
  recognized type' -> type <> type' -> element (assign a type v) type' = element a type'.
Proof.
  intros H' Hne. each_type H'; destruct type as [|[q|q|]|]; try reflexivity;
    try congruence; destruct q; try reflexivity; congruence.
Qed.

(** ** The two branches of [AllocateCommandContext] *)

Ltac project :=
  cbn [heap m_CommandContextPool m_AvailableCommandContexts listManager calls fst snd
       m_Type m_CommandList m_CurrentAllocator m_numBarriersToFlush m_curPSO m_ID
       CommandContext_ctor] in *.

Lemma AllocateCommandContext_unrecognized type p :
  ~ recognized type -> AllocateCommandContext type p = Fault IndexOutOfRange.
Proof.
  intros H. unfold AllocateCommandContext, bind, get, lift, AvailableContextSize.
  now rewrite subscript_unrecognized.
Qed.

Lemma AllocateCommandContext_new type p :
  recognized type -> idle type p = [] ->
  AllocateCommandContext type p = Ret (length (heap p), after_new type p).
Proof.
  intros Hr Hq. unfold idle in Hq.
  unfold AllocateCommandContext, bind, get, lift, AvailableContextSize, ContextPoolSize.
  rewrite subscript_recognized, Hq by assumption.
  unfold new_CommandContext. project.
  rewrite subscript_recognized by assumption.
  unfold set_pool, Initialize, bind, record, load, CreateNewCommandList, store, ret.
  project. rewrite list_lookup_middle by reflexivity. project.
  rewrite insert_app_r_alt by lia. rewrite Nat.sub_diag. cbn [insert list_insert].
  rewrite list_lookup_middle by reflexivity.
  cbn [m_Type assert]. rewrite Z.eqb_refl. unfold ret, after_new, initialized, owned.
  rewrite <- app_assoc. reflexivity.
Qed.

(** With a context waiting in the idle queue, the call is: pop it, call
    [Reset] on it, check its type, return it. *)
Lemma AllocateCommandContext_front type p front rest :
  recognized type -> idle type p = front :: rest ->
  AllocateCommandContext type p =
  match Reset front {| heap := heap p;
                       m_CommandContextPool := m_CommandContextPool p;
                       m_AvailableCommandContexts :=
                         assign (m_AvailableCommandContexts p) type rest;
                       listManager := listManager p;
                       calls := calls p |} with
  | Ret (_, p') =>
      match heap p' !! front with
      | Some c => if m_Type c =? type then Ret (front, p') else Fault AssertionFailure
      | None => Fault InvalidPointer
      end
  | Fault f => Fault f
  end.
Proof.
  intros Hr Hq. unfold idle in Hq.
  unfold AllocateCommandContext, bind, get, lift, AvailableContextSize.
  rewrite subscript_recognized, Hq by assumption.
  unfold set_available at 1. cbv beta iota.
  destruct (Reset front _) as [[[] p']|f]; [|reflexivity].
  unfold ret at 1, load. destruct (heap p' !! front) as [c|]; [|reflexivity].
  unfold assert. destruct (m_Type c =? type); reflexivity.
Qed.

Lemma Reset_resettable this p c :
  heap p !! this = Some c -> resettable c ->
  Reset this p = Ret (tt, {| heap := heap p;
                             m_CommandContextPool := m_CommandContextPool p;
                             m_AvailableCommandContexts := m_AvailableCommandContexts p;
                             listManager := listManager p;
                             calls := calls p ++ [CallReset this] |}).
Proof.
  intros Hc [Hl Ha]. unfold Reset, bind, record, load. cbn [heap]. rewrite Hc.
  destruct (m_CommandList c); [|congruence]. rewrite Ha. reflexivity.
Qed.

(** [Reset] returns only when its assertion holds, and then it has
    changed nothing but the record of calls. *)
Lemma Reset_Ret this p u p' :
  Reset this p = Ret (u, p') ->
  (exists c, heap p !! this = Some c /\ resettable c) /\
  p' = {| heap := heap p;
          m_CommandContextPool := m_CommandContextPool p;
          m_AvailableCommandContexts := m_AvailableCommandContexts p;
          listManager := listManager p;
          calls := calls p ++ [CallReset this] |}.
Proof.
  unfold Reset, bind, record, load. cbn [heap]. intros H.
  destruct (heap p !! this) as [c|] eqn:Hc; [|discriminate].
  destruct (m_CommandList c) eqn:Hl; [|discriminate].
  destruct (m_CurrentAllocator c) as [|[h|]] eqn:Ha; try discriminate.
  injection H as <- <-. split; [|reflexivity].
  exists c. split; [reflexivity|]. split; [rewrite Hl; discriminate | exact Ha].
Qed.

Lemma AllocateCommandContext_reuse type p front rest c :
  recognized type -> idle type p = front :: rest ->
  heap p !! front = Some c -> resettable c -> m_Type c = type ->
  AllocateCommandContext type p = Ret (front, after_reuse type front rest p).
Proof.
  intros Hr Hq Hc Hres Ht.
  rewrite (AllocateCommandContext_front type p front rest Hr Hq).
  erewrite Reset_resettable by eassumption.
  cbn [heap]. rewrite Hc. apply Z.eqb_eq in Ht. rewrite Ht. reflexivity.
Qed.

(** Every normal return of [AllocateCommandContext] is one of the two. *)
Lemma AllocateCommandContext_Ret type p a p' :
  AllocateCommandContext type p = Ret (a, p') ->
  recognized type /\
  ((idle type p = [] /\ a = length (heap p) /\ p' = after_new type p) \/
   (exists rest c, idle type p = a :: rest /\ heap p !! a = Some c /\
      resettable c /\ m_Type c = type /\ p' = after_reuse type a rest p)).
Proof.
  intros H. destruct (decide (0 <= type < 4)) as [Hr | Hr].
  2: { rewrite AllocateCommandContext_unrecognized in H; [discriminate|].
       now rewrite recognized_range. }
  apply recognized_range in Hr. split; [assumption|].
  destruct (idle type p) as [|front rest] eqn:Hq.
  - rewrite AllocateCommandContext_new in H by assumption.
    injection H as <- <-. left. auto.
  - rewrite (AllocateCommandContext_front type p front rest Hr Hq) in H.
    destruct (Reset front _) as [[u p1]|f] eqn:HR; [|discriminate].
    apply Reset_Ret in HR. cbn [heap m_CommandContextPool m_AvailableCommandContexts
      listManager calls] in HR. destruct HR as [(c & Hc & Hres) ->].
    cbn [heap] in H. rewrite Hc in H.
    destruct (m_Type c =? type) eqn:Ht; [|discriminate].
    injection H as <- <-. right. exists rest, c.
    apply Z.eqb_eq in Ht. repeat split; try assumption; apply Hres.
Qed.

(** ** [FreeCommandContext], [SetID] and [Begin] *)

Lemma FreeCommandContext_held a c p :
  heap p !! a = Some c -> recognized (m_Type c) ->
  FreeCommandContext (Some a) p = Ret (tt, after_free a (m_Type c) p).
Proof.
  intros Hc Hr. unfold FreeCommandContext, bind, load, get, lift, AvailableContextSize.
  rewrite Hc, subscript_recognized by assumption. reflexivity.
Qed.

Lemma FreeCommandContext_Ret usedContext p u p' :
  FreeCommandContext usedContext p = Ret (u, p') ->
  exists a c, usedContext = Some a /\ heap p !! a = Some c /\ recognized (m_Type c) /\
              p' = after_free a (m_Type c) p.
Proof.
  destruct usedContext as [a|]; [|discriminate].
  unfold FreeCommandContext, bind, load, get, lift, AvailableContextSize.
  destruct (heap p !! a) as [c|] eqn:Hc; [|discriminate].
  destruct (subscript 4 _ _) as [q|f] eqn:Hq; [|discriminate].
  apply subscript_Ret in Hq as [Hr ->]. intros H. injection H as <- <-.
  exists a, c. auto.
Qed.

Lemma SetID_loaded a ID c p :
  heap p !! a = Some c -> SetID a ID p = Ret (tt, after_SetID a ID c p).
Proof. intros Hc. unfold SetID, bind, load, store. rewrite Hc. reflexivity. Qed.

(** A context that [AllocateCommandContext] returns is an object of the
    heap, of the type that was asked for. *)
Lemma AllocateCommandContext_type type p a p' :
  AllocateCommandContext type p = Ret (a, p') ->
  exists c, heap p' !! a = Some c /\ m_Type c = type.
Proof.
  intros H. apply AllocateCommandContext_Ret in H as [Hr [(Hq & -> & ->) | H]].
  - exists (initialized type p). split; [|reflexivity].
    unfold after_new. project. now apply list_lookup_middle.
  - destruct H as (rest & c & Hq & Hc & Hres & Ht & ->). exists c. auto.
Qed.

Lemma Begin_Allocate ID p :
  Begin ID p =
  match AllocateCommandContext D3D12_COMMAND_LIST_TYPE_DIRECT p with
  | Ret (a, p1) =>
      match heap p1 !! a with
      | Some c => Ret (a, after_SetID a ID c p1)
      | None => Fault InvalidPointer
      end
  | Fault f => Fault f
  end.
Proof.
  unfold Begin, bind.
  destruct (AllocateCommandContext _ p) as [[a p1]|f]; [|reflexivity].
  unfold SetID, bind, load, store, ret.
  destruct (heap p1 !! a); reflexivity.
Qed.

(** No path of [AllocateCommandContext] reports an error of the taxonomy. *)
Lemma AllocateCommandContext_never_raises type p e :
  AllocateCommandContext type p <> Fault (Raised e).
Proof.
  destruct (decide (0 <= type < 4)) as [Hr | Hr].
  2: { rewrite AllocateCommandContext_unrecognized; [discriminate|].
       now rewrite recognized_range. }
  apply recognized_range in Hr.
  destruct (idle type p) as [|front rest] eqn:Hq.
  - now rewrite AllocateCommandContext_new.
  - rewrite (AllocateCommandContext_front type p front rest Hr Hq).
    unfold Reset, bind, record, load. project.
    destruct (heap p !! front) as [c|]; [|discriminate].
    destruct (m_CommandList c); [|discriminate].
    destruct (m_CurrentAllocator c) as [|[h|]]; try discriminate.
    unfold ret. project. destruct (heap p !! front) as [c'|]; [|discriminate].
    destruct (m_Type c' =? type); discriminate.
Qed.

(** ** The context pool: allocation *)

(** C5. For a recognized queue type, [AllocateCommandContext] with an
    empty idle queue constructs exactly one context, registers it in the
    owning pool of the type and calls [Initialize] on it; with a context
    waiting in the idle queue it pops the front one and calls [Reset] on
    it (and returns it whenever the assertions of [Reset] and of the
    manager hold).  In both cases the context returned has the requested
    type. *)
Theorem AllocateCommandContext_recognized type p :
  recognized type ->
  match idle type p with
  | [] =>
      AllocateCommandContext type p = Ret (length (heap p), after_new type p) /\
      heap (after_new type p) = heap p ++ [initialized type p] /\
      owned type (after_new type p) = owned type p ++ [length (heap p)] /\
      idle type (after_new type p) = [] /\
      calls (after_new type p) =
        calls p ++ [CallConstructor (length (heap p)); CallInitialize (length (heap p))]
  | front :: rest =>
      (forall c, heap p !! front = Some c -> resettable c -> m_Type c = type ->
         AllocateCommandContext type p = Ret (front, after_reuse type front rest p)) /\
      (forall a p', AllocateCommandContext type p = Ret (a, p') ->
         a = front /\ p' = after_reuse type front rest p) /\
      idle type (after_reuse type front rest p) = rest /\
      heap (after_reuse type front rest p) = heap p /\
      m_CommandContextPool (after_reuse type front rest p) = m_CommandContextPool p /\
      calls (after_reuse type front rest p) = calls p ++ [CallReset front]
  end /\
  (forall a p', AllocateCommandContext type p = Ret (a, p') ->
     exists c, heap p' !! a = Some c /\ m_Type c = type).
Proof.
  intros Hr. split; [|apply AllocateCommandContext_type].
  destruct (idle type p) as [|front rest] eqn:Hq.
  - split; [now apply AllocateCommandContext_new|].
    unfold after_new, owned, idle. project.
    rewrite element_assign_eq by assumption. auto.
  - split; [intros c Hc Hres Ht; now apply AllocateCommandContext_reuse with c|].
    split.
    + intros a p' H. apply AllocateCommandContext_Ret in H as [_ [(Hq' & _) | H]].
      * congruence.
      * destruct H as (rest' & c & Hq' & _ & _ & _ & ->).
        rewrite Hq in Hq'. injection Hq' as <- <-. auto.
    + unfold after_reuse, idle. project.
      rewrite element_assign_eq by assumption. auto.
Qed.

Lemma AllocateCommandContext_recognized_witness :
  AllocateCommandContext D3D12_COMMAND_LIST_TYPE_COPY startup =
    Ret (0%nat, after_new D3D12_COMMAND_LIST_TYPE_COPY startup) /\
  AllocateCommandContext D3D12_COMMAND_LIST_TYPE_DIRECT two_idle =
    Ret (0%nat, after_reuse D3D12_COMMAND_LIST_TYPE_DIRECT 0%nat [1%nat] two_idle).
Proof.
  split.
  - exact (proj1 (proj1 (AllocateCommandContext_recognized
             D3D12_COMMAND_LIST_TYPE_COPY startup
             (or_intror (or_intror (or_intror eq_refl)))))).
  - refine (proj1 (proj1 (AllocateCommandContext_recognized
             D3D12_COMMAND_LIST_TYPE_DIRECT two_idle (or_introl eq_refl)))
             (finished D3D12_COMMAND_LIST_TYPE_DIRECT 0) eq_refl _ eq_refl).
    split; [discriminate | reflexivity].
Defined.

(** C7, as the code has it. [AllocateCommandContext] validates nothing and
    reports no error of the taxonomy: a queue type outside the four that
    key the pools subscripts the fixed-size arrays past their end
    (undefined behaviour), and no context is returned. *)
Theorem AllocateCommandContext_unvalidated type p :
  (forall e, AllocateCommandContext type p <> Fault (Raised e)) /\
  (~ recognized type -> AllocateCommandContext type p = Fault IndexOutOfRange).
Proof.
  split.
  - intros e. apply AllocateCommandContext_never_raises.
  - apply AllocateCommandContext_unrecognized.
Qed.

Lemma AllocateCommandContext_unvalidated_witness :
  ~ recognized 6 /\ AllocateCommandContext 6 startup = Fault IndexOutOfRange.
Proof.
  assert (H : ~ recognized 6) by (rewrite recognized_range; lia).
  split; [exact H|].
  exact (proj2 (AllocateCommandContext_unvalidated 6 startup) H).
Defined.

(** C7 as written fails: [D3D12_COMMAND_LIST_TYPE_VIDEO_DECODE] (4) is not
    one of the four queue types, and the call does not fail with
    [InvalidArgument]. *)
Lemma AllocateCommandContext_video_decode :
  ~ recognized 4 /\
  AllocateCommandContext 4 startup = Fault IndexOutOfRange /\
  AllocateCommandContext 4 startup <> Fault (Raised InvalidArgument).
Proof.
  split; [rewrite recognized_range; lia|].
  split; [reflexivity | discriminate].
Qed.

(** ** The context pool: reuse *)

(** C6, as the code has it. A context freed into the otherwise empty idle
    queue of its type, whose command list exists and whose allocator
    pointer is already null (what [Reset] asserts), is the context that
    the next [AllocateCommandContext] of that type returns, and [Reset]
    has been called on it before it is handed back.  [Reset] detaches
    nothing: it requires the allocator to be detached already. *)
Theorem FreeCommandContext_then_Allocate p a c :
  heap p !! a = Some c -> recognized (m_Type c) -> idle (m_Type c) p = [] ->
  resettable c ->
  exists p1 p2,
    FreeCommandContext (Some a) p = Ret (tt, p1) /\
    idle (m_Type c) p1 = [a] /\
    AllocateCommandContext (m_Type c) p1 = Ret (a, p2) /\
    calls p2 = calls p ++ [CallReset a] /\
    idle (m_Type c) p2 = [] /\
    exists c2, heap p2 !! a = Some c2 /\ resettable c2 /\ m_Type c2 = m_Type c.
Proof.
  intros Hc Hr Hq Hres.
  exists (after_free a (m_Type c) p),
         (after_reuse (m_Type c) a [] (after_free a (m_Type c) p)).
  assert (Hq1 : idle (m_Type c) (after_free a (m_Type c) p) = [a]).
  { unfold after_free, idle at 1. project.
    rewrite element_assign_eq by assumption. now rewrite Hq. }
  split; [now apply FreeCommandContext_held|].
  split; [exact Hq1|].
  split; [now apply AllocateCommandContext_reuse with c|].
  split; [reflexivity|].
  split.
  - unfold after_reuse, idle at 1. project. now rewrite element_assign_eq.
  - exists c. auto.
Qed.

Lemma FreeCommandContext_then_Allocate_witness :
  exists p1 p2,
    FreeCommandContext (Some 1%nat) two_held = Ret (tt, p1) /\
    idle D3D12_COMMAND_LIST_TYPE_DIRECT p1 = [1%nat] /\
    AllocateCommandContext D3D12_COMMAND_LIST_TYPE_DIRECT p1 = Ret (1%nat, p2) /\
    calls p2 = calls two_held ++ [CallReset 1%nat] /\
    idle D3D12_COMMAND_LIST_TYPE_DIRECT p2 = [] /\
    exists c2, heap p2 !! 1%nat = Some c2 /\ resettable c2 /\
               m_Type c2 = D3D12_COMMAND_LIST_TYPE_DIRECT.
Proof.
  apply (FreeCommandContext_then_Allocate two_held 1%nat
           (finished D3D12_COMMAND_LIST_TYPE_DIRECT 2)).
  - reflexivity.
  - left. reflexivity.
  - reflexivity.
  - split; [discriminate | reflexivity].
Defined.

(** C6 as written fails. The context that the first [Begin] of a process
    leaves has its allocator attached; freed into the empty idle queue and
    asked for again, it trips the assertion of [Reset], which was to
    detach the allocator, and is not returned. *)
Lemma FreeCommandContext_then_Allocate_attached :
  heap recording !! 0%nat =
    Some (initialized D3D12_COMMAND_LIST_TYPE_DIRECT startup) /\
  idle D3D12_COMMAND_LIST_TYPE_DIRECT recording = [] /\
  FreeCommandContext (Some 0%nat) recording =
    Ret (tt, after_free 0%nat D3D12_COMMAND_LIST_TYPE_DIRECT recording) /\
  AllocateCommandContext D3D12_COMMAND_LIST_TYPE_DIRECT
    (after_free 0%nat D3D12_COMMAND_LIST_TYPE_DIRECT recording) = Fault AssertionFailure.
Proof. repeat split. Qed.

(** The body of [Reset] being empty apart from its assertion, a context
    comes back from the pool with its barrier count and its pipeline
    state as they were when it was freed. *)
Example Reset_leaves_rendering_state :
  exists p1 p2,
    FreeCommandContext (Some 0%nat) two_held = Ret (tt, p1) /\
    AllocateCommandContext D3D12_COMMAND_LIST_TYPE_DIRECT p1 = Ret (0%nat, p2) /\
    (m_numBarriersToFlush <$> heap p2 !! 0%nat) = Some (Holds 3) /\
    (m_curPSO <$> heap p2 !! 0%nat) = Some (Some 7%nat).
Proof. do 2 eexists. repeat split. Qed.

(** ** Serial use keeps the pool consistent *)

Lemma idle_assign type type' q p (f : Process) :
  recognized type -> recognized type' ->
  m_AvailableCommandContexts f = assign (m_AvailableCommandContexts p) type q ->
  idle type' f = if decide (type' = type) then q else idle type' p.
Proof.
  intros Hr Hr' Hf. unfold idle. rewrite Hf. destruct (decide (type' = type)) as [->|Hne].
  - now apply element_assign_eq.
  - apply element_assign_ne; [assumption|congruence].
Qed.

Lemma owned_assign type type' q p (f : Process) :
  recognized type -> recognized type' ->
  m_CommandContextPool f = assign (m_CommandContextPool p) type q ->
  owned type' f = if decide (type' = type) then q else owned type' p.
Proof.
  intros Hr Hr' Hf. unfold owned. rewrite Hf. destruct (decide (type' = type)) as [->|Hne].
  - now apply element_assign_eq.
  - apply element_assign_ne; [assumption|congruence].
Qed.

Lemma consistent_startup : consistent startup [].
Proof.
  split.
  - intros type Hr. each_type Hr; constructor.
  - constructor.
  - intros type a Hr Ha. each_type Hr; inversion Ha.
  - intros a Ha. inversion Ha.
  - intros a c Hc. destruct a; discriminate.
Qed.

Lemma held_in_heap p held a :
  consistent p held -> a ∈ held -> (a < length (heap p))%nat.
Proof.
  intros C Ha. destruct (held_typed _ _ C a Ha) as (c & Hc & _).
  eapply lookup_lt_Some, Hc.
Qed.

Lemma idle_in_heap p held type a :
  consistent p held -> recognized type -> a ∈ idle type p -> (a < length (heap p))%nat.
Proof.
  intros C Hr Ha. destruct (idle_typed _ _ C type a Hr Ha) as (_ & c & Hc & _).
  eapply lookup_lt_Some, Hc.
Qed.

Lemma consistent_new p held type :
  consistent p held -> recognized type ->
  consistent (after_new type p) (length (heap p) :: held).
Proof.
  intros C Hr. split.
  - intros type' Hr'. exact (idle_NoDup _ _ C type' Hr').
  - constructor; [|exact (held_NoDup _ _ C)].
    intros Hin. pose proof (held_in_heap _ _ _ C Hin). lia.
  - intros type' a Hr' Ha. change (idle type' (after_new type p)) with (idle type' p) in Ha.
    destruct (idle_typed _ _ C type' a Hr' Ha) as (Hnh & c & Hc & Ht).
    split.
    + rewrite not_elem_of_cons. split; [|assumption].
      apply lookup_lt_Some in Hc. lia.
    + exists c. split; [|assumption]. unfold after_new. project.
      now apply lookup_app_l_Some.
  - intros a Ha. unfold after_new. project. apply elem_of_cons in Ha as [->|Ha].
    + exists (initialized type p). split; [now apply list_lookup_middle | assumption].
    + destruct (held_typed _ _ C a Ha) as (c & Hc & Ht). exists c.
      split; [now apply lookup_app_l_Some | assumption].
  - intros a c Hc. unfold after_new in Hc. project.
    assert (Howned : forall type', recognized type' ->
              owned type' (after_new type p) =
              if decide (type' = type) then owned type p ++ [length (heap p)]
              else owned type' p).
    { intros type' Hr'. now apply owned_assign. }
    apply lookup_app_Some in Hc as [Hc | [Hle Hc]].
    + destruct (heap_owned _ _ C a c Hc) as [Hrc Hin]. split; [assumption|].
      rewrite Howned by assumption. destruct (decide (m_Type c = type)) as [<-|]; [|assumption].
      apply elem_of_app. now left.
    + destruct (a - length (heap p))%nat as [|n] eqn:En; [|destruct n; discriminate].
      cbn in Hc. injection Hc as <-. cbn [initialized m_Type]. split; [assumption|].
      rewrite Howned by assumption. destruct (decide (type = type)); [|contradiction].
      apply elem_of_app. right. apply list_elem_of_singleton. lia.
Qed.

Lemma consistent_reuse p held type a rest c :
  consistent p held -> recognized type -> idle type p = a :: rest ->
  heap p !! a = Some c -> m_Type c = type ->
  consistent (after_reuse type a rest p) (a :: held).
Proof.
  intros C Hr Hq Hc Ht.
  assert (Hnd : NoDup (a :: rest)) by (rewrite <- Hq; exact (idle_NoDup _ _ C type Hr)).
  apply NoDup_cons in Hnd as [Hnot Hnd].
  assert (Ha : a ∈ idle type p) by (rewrite Hq; left).
  assert (Hidle : forall type', recognized type' ->
            idle type' (after_reuse type a rest p) =
            if decide (type' = type) then rest else idle type' p).
  { intros type' Hr'. now apply idle_assign. }
  split.
  - intros type' Hr'. rewrite Hidle by assumption.
    destruct (decide (type' = type)); [assumption | exact (idle_NoDup _ _ C type' Hr')].
  - constructor; [|exact (held_NoDup _ _ C)].
    exact (proj1 (idle_typed _ _ C type a Hr Ha)).
  - intros type' b Hr' Hb. rewrite Hidle in Hb by assumption.
    assert (Hb' : b ∈ idle type' p /\ b <> a).
    { destruct (decide (type' = type)) as [->|Hne].
      - split; [rewrite Hq; now right | intros ->; contradiction].
      - split; [assumption|]. intros ->.
        destruct (idle_typed _ _ C type' a Hr' Hb) as (_ & c' & Hc' & Ht').
        congruence. }
    destruct Hb' as [Hb' Hne].
    destruct (idle_typed _ _ C type' b Hr' Hb') as (Hnh & cb & Hcb & Htb).
    split; [rewrite not_elem_of_cons; auto | exists cb; auto].
  - intros b Hb. apply elem_of_cons in Hb as [->|Hb].
    + exists c. split; [assumption | now rewrite Ht].
    + exact (held_typed _ _ C b Hb).
  - exact (heap_owned _ _ C).
Qed.

Lemma consistent_Allocate p held type a p' :
  consistent p held -> AllocateCommandContext type p = Ret (a, p') ->
  consistent p' (a :: held).
Proof.
  intros C H. apply AllocateCommandContext_Ret in H as [Hr [(Hq & -> & ->) | H]].
  - now apply consistent_new.
  - destruct H as (rest & c & Hq & Hc & _ & Ht & ->). now apply consistent_reuse with c.
Qed.

Lemma consistent_use p held a c c' :
  consistent p held -> a ∈ held -> heap p !! a = Some c -> m_Type c' = m_Type c ->
  consistent (after_use a c' p) held.
Proof.
  intros C Ha Hc Ht. split.
  - intros type Hr. exact (idle_NoDup _ _ C type Hr).
  - exact (held_NoDup _ _ C).
  - intros type b Hr Hb. change (idle type (after_use a c' p)) with (idle type p) in Hb.
    destruct (idle_typed _ _ C type b Hr Hb) as (Hnh & cb & Hcb & Htb).
    split; [assumption|]. exists cb. split; [|assumption].
    unfold after_use. project. rewrite list_lookup_insert_ne; [assumption|].
    intros ->. contradiction.
  - intros b Hb. unfold after_use. project.
    destruct (decide (a = b)) as [->|Hne].
    + exists c'. split.
      * apply list_lookup_insert_eq. eapply lookup_lt_Some, Hc.
      * rewrite Ht. destruct (held_typed _ _ C b Hb) as (c0 & Hc0 & Hr0). congruence.
    + rewrite list_lookup_insert_ne by assumption. exact (held_typed _ _ C b Hb).
  - intros b cb Hcb. unfold after_use in Hcb. project.
    change (owned (m_Type cb) (after_use a c' p)) with (owned (m_Type cb) p).
    destruct (decide (a = b)) as [->|Hne].
    + rewrite list_lookup_insert_eq in Hcb by (eapply lookup_lt_Some, Hc).
      injection Hcb as <-. rewrite Ht. exact (heap_owned _ _ C b c Hc).
    + rewrite list_lookup_insert_ne in Hcb by assumption. exact (heap_owned _ _ C b cb Hcb).
Qed.

Lemma consistent_Free p held1 a held2 p' :
  consistent p (held1 ++ a :: held2) ->
  FreeCommandContext (Some a) p = Ret (tt, p') ->
  consistent p' (held1 ++ held2).
Proof.
  intros C H. apply FreeCommandContext_Ret in H as (a' & c & Ha' & Hc & Hr & ->).
  injection Ha' as <-.
  assert (Hnd : NoDup (a :: held1 ++ held2)).
  { rewrite (Permutation_middle held1 held2 a). exact (held_NoDup _ _ C). }
  apply NoDup_cons in Hnd as [Hnot Hnd].
  assert (Hheld : a ∈ held1 ++ a :: held2) by (apply elem_of_app; right; left).
  assert (Hsub : forall b, b ∈ held1 ++ held2 -> b ∈ held1 ++ a :: held2).
  { intros b Hb. apply elem_of_app in Hb as [Hb|Hb]; apply elem_of_app;
      [left | right; right]; assumption. }
  assert (Hidle : forall type', recognized type' ->
            idle type' (after_free a (m_Type c) p) =
            if decide (type' = m_Type c) then idle (m_Type c) p ++ [a] else idle type' p).
  { intros type' Hr'. now apply idle_assign. }
  assert (Hfresh : forall type', recognized type' -> a ∉ idle type' p).
  { intros type' Hr' Hin.
    now destruct (idle_typed _ _ C type' a Hr' Hin) as (Hnh & _). }
  split.
  - intros type' Hr'. rewrite Hidle by assumption.
    destruct (decide (type' = m_Type c)) as [->|Hne]; [|exact (idle_NoDup _ _ C type' Hr')].
    apply NoDup_app. split; [exact (idle_NoDup _ _ C _ Hr)|].
    split; [|apply NoDup_singleton].
    intros b Hb Hb'. apply list_elem_of_singleton in Hb' as ->.
    now apply (Hfresh (m_Type c)).
  - assumption.
  - intros type' b Hr' Hb. rewrite Hidle in Hb by assumption.
    assert (Hcase : b ∈ idle type' p \/ (b = a /\ type' = m_Type c)).
    { destruct (decide (type' = m_Type c)) as [->|Hne]; [|now left].
      apply elem_of_app in Hb as [Hb|Hb]; [now left|].
      apply list_elem_of_singleton in Hb. now right. }
    destruct Hcase as [Hb'|[-> ->]].
    + destruct (idle_typed _ _ C type' b Hr' Hb') as (Hnh & cb & Hcb & Htb).
      split; [|exists cb; auto]. intros Hin. apply Hnh, Hsub, Hin.
    + split; [assumption | exists c; auto].
  - intros b Hb. exact (held_typed _ _ C b (Hsub b Hb)).
  - exact (heap_owned _ _ C).
Qed.

Lemma consistent_Begin p held ID a p' :
  consistent p held -> Begin ID p = Ret (a, p') -> consistent p' (a :: held).
Proof.
  intros C H. rewrite Begin_Allocate in H.
  destruct (AllocateCommandContext _ p) as [[a1 p1]|f] eqn:HA; [|discriminate].
  destruct (heap p1 !! a1) as [c|] eqn:Hc; [|discriminate].
  injection H as <- <-.
  apply (consistent_use p1 (a1 :: held) a1 c); [| left | assumption | reflexivity].
  eapply consistent_Allocate; eassumption.
Qed.

Lemma serial_consistent p held : serial p held -> consistent p held.
Proof.
  induction 1.
  - apply consistent_startup.
  - eapply consistent_Allocate; eassumption.
  - eapply consistent_Begin; eassumption.
  - eapply consistent_use; eassumption.
  - eapply consistent_Free; eassumption.
Qed.

(** ** Exclusive hand-out under serial use *)

(** C9, as the code has it. The manager has no lock; when its calls are
    made one after the other, and a context is freed only by its holder,
    the contexts handed out and not yet freed are pairwise distinct and
    neither [AllocateCommandContext] nor [Begin] returns one of them. *)
Theorem serial_exclusive p held :
  serial p held ->
  NoDup held /\
  (forall type a p', AllocateCommandContext type p = Ret (a, p') -> a ∉ held) /\
  (forall ID a p', Begin ID p = Ret (a, p') -> a ∉ held).
Proof.
  intros S. apply serial_consistent in S as C.
  split; [exact (held_NoDup _ _ C)|].
  split.
  - intros type a p' H. pose proof (consistent_Allocate _ _ _ _ _ C H) as C'.
    pose proof (held_NoDup _ _ C') as Hnd. now apply NoDup_cons in Hnd.
  - intros ID a p' H. pose proof (consistent_Begin _ _ _ _ _ C H) as C'.
    pose proof (held_NoDup _ _ C') as Hnd. now apply NoDup_cons in Hnd.
Qed.

Lemma serial_recording : serial recording [0%nat].
Proof.
  exact (serial_Allocate startup [] D3D12_COMMAND_LIST_TYPE_DIRECT 0%nat recording
           serial_startup eq_refl).
Defined.

Lemma serial_exclusive_witness :
  NoDup [0%nat] /\
  (forall type a p', AllocateCommandContext type recording = Ret (a, p') -> a ∉ [0%nat]) /\
  (forall ID a p', Begin ID recording = Ret (a, p') -> a ∉ [0%nat]).
Proof. exact (serial_exclusive recording [0%nat] serial_recording). Defined.

(** The two example processes are ones that serial use leads to. *)
Lemma serial_two_held : serial two_held [1%nat; 0%nat].
Proof.
  pose (p2 := after_new D3D12_COMMAND_LIST_TYPE_DIRECT recording).
  assert (S2 : serial p2 [1%nat; 0%nat]).
  { exact (serial_Allocate recording [0%nat] D3D12_COMMAND_LIST_TYPE_DIRECT 1%nat p2
             serial_recording eq_refl). }
  pose (p3 := after_use 0%nat (finished D3D12_COMMAND_LIST_TYPE_DIRECT 0) p2).
  assert (S3 : serial p3 [1%nat; 0%nat]).
  { apply (serial_use p2 [1%nat; 0%nat] 0%nat
             (initialized D3D12_COMMAND_LIST_TYPE_DIRECT startup)); try reflexivity;
      [exact S2 | right; left]. }
  change two_held with (after_use 1%nat (finished D3D12_COMMAND_LIST_TYPE_DIRECT 2) p3).
  apply (serial_use p3 [1%nat; 0%nat] 1%nat
           (initialized D3D12_COMMAND_LIST_TYPE_DIRECT recording)); try reflexivity;
    [exact S3 | left].
Qed.

Lemma serial_two_idle : serial two_idle [].
Proof.
  pose (p1 := after_free 0%nat D3D12_COMMAND_LIST_TYPE_DIRECT two_held).
  assert (S1 : serial p1 [1%nat]).
  { exact (serial_Free two_held [1%nat] 0%nat [] p1 serial_two_held eq_refl). }
  exact (serial_Free p1 [] 1%nat [] two_idle S1 eq_refl).
Qed.

(** ** [Begin] *)

(** What [Begin] returns, in any process. *)
Lemma Begin_returns ID p :
  (forall a p', Begin ID p = Ret (a, p') ->
     exists p1 c,
       AllocateCommandContext D3D12_COMMAND_LIST_TYPE_DIRECT p = Ret (a, p1) /\
       heap p' !! a = Some c /\ m_ID c = ID /\
       m_Type c = D3D12_COMMAND_LIST_TYPE_DIRECT /\
       m_Type c <> D3D12_COMMAND_LIST_TYPE_BUNDLE /\
       m_Type c <> D3D12_COMMAND_LIST_TYPE_COMPUTE /\
       m_Type c <> D3D12_COMMAND_LIST_TYPE_COPY) /\
  (forall a p1, AllocateCommandContext D3D12_COMMAND_LIST_TYPE_DIRECT p = Ret (a, p1) ->
     exists p', Begin ID p = Ret (a, p')) /\
  (forall f, Begin ID p = Fault f <->
             AllocateCommandContext D3D12_COMMAND_LIST_TYPE_DIRECT p = Fault f).
Proof.
  rewrite Begin_Allocate.
  destruct (AllocateCommandContext _ p) as [[a p1]|f] eqn:HA.
  - destruct (AllocateCommandContext_type _ _ _ _ HA) as (c & Hc & Ht).
    rewrite Hc. split; [|split].
    + intros a' p' H. injection H as <- <-. exists p1. eexists. split; [reflexivity|].
      unfold after_SetID. project. split.
      * apply list_lookup_insert_eq. eapply lookup_lt_Some, Hc.
      * project. rewrite Ht. repeat split; discriminate.
    + intros a' p1' H. injection H as <- <-. eauto.
    + intros f. split; discriminate.
  - split; [|split].
    + discriminate.
    + discriminate.
    + intros f'. reflexivity.
Qed.

(** C10. [Begin] takes a label and nothing else; it returns exactly when
    [AllocateCommandContext(D3D12_COMMAND_LIST_TYPE_DIRECT)] returns, hands
    out the context that call returned, with the label set, and that
    context is a graphics one: never bundle, compute or copy.  In a
    process that serial use has led to, it is a context registered in the
    owning pool of the graphics type, and one that nobody holds. *)
Theorem Begin_is_direct ID p :
  (forall a p', Begin ID p = Ret (a, p') ->
     exists p1 c,
       AllocateCommandContext D3D12_COMMAND_LIST_TYPE_DIRECT p = Ret (a, p1) /\
       heap p' !! a = Some c /\ m_ID c = ID /\
       m_Type c = D3D12_COMMAND_LIST_TYPE_DIRECT /\
       m_Type c <> D3D12_COMMAND_LIST_TYPE_BUNDLE /\
       m_Type c <> D3D12_COMMAND_LIST_TYPE_COMPUTE /\
       m_Type c <> D3D12_COMMAND_LIST_TYPE_COPY) /\
  (forall a p1, AllocateCommandContext D3D12_COMMAND_LIST_TYPE_DIRECT p = Ret (a, p1) ->
     exists p', Begin ID p = Ret (a, p')) /\
  (forall f, Begin ID p = Fault f <->
             AllocateCommandContext D3D12_COMMAND_LIST_TYPE_DIRECT p = Fault f) /\
  (forall held a p', serial p held -> Begin ID p = Ret (a, p') ->
     a ∈ owned D3D12_COMMAND_LIST_TYPE_DIRECT p' /\ a ∉ held).
Proof.
  destruct (Begin_returns ID p) as (Hret & Htotal & Hfault).
  split; [exact Hret | split; [exact Htotal | split; [exact Hfault|]]].
  clear Hret Htotal Hfault.
  intros held a p' S H. apply serial_consistent in S as C.
  pose proof (consistent_Begin _ _ _ _ _ C H) as C'.
  pose proof (held_NoDup _ _ C') as Hnd. apply NoDup_cons in Hnd as [Hnot _].
  split; [|assumption].
  destruct (held_typed _ _ C' a) as (c & Hc & _); [left|].
  destruct (heap_owned _ _ C' a c Hc) as [_ Hin].
  rewrite Begin_Allocate in H.
  destruct (AllocateCommandContext _ p) as [[a1 p1]|f] eqn:HA; [|discriminate].
  destruct (AllocateCommandContext_type _ _ _ _ HA) as (c1 & Hc1 & Ht1).
  rewrite Hc1 in H. injection H as -> <-.
  unfold after_SetID in Hc. project.
  rewrite list_lookup_insert_eq in Hc by (eapply lookup_lt_Some, Hc1).
  injection Hc as <-. project. now rewrite Ht1 in Hin.
Qed.

Lemma Begin_is_direct_witness :
  let p' := after_SetID 0%nat "main"
              (initialized D3D12_COMMAND_LIST_TYPE_DIRECT startup) recording in
  (exists p1 c,
     AllocateCommandContext D3D12_COMMAND_LIST_TYPE_DIRECT startup = Ret (0%nat, p1) /\
     heap p' !! 0%nat = Some c /\
     m_ID c = "main"%string /\
     m_Type c = D3D12_COMMAND_LIST_TYPE_DIRECT /\
     m_Type c <> D3D12_COMMAND_LIST_TYPE_BUNDLE /\
     m_Type c <> D3D12_COMMAND_LIST_TYPE_COMPUTE /\
     m_Type c <> D3D12_COMMAND_LIST_TYPE_COPY) /\
  (0%nat ∈ owned D3D12_COMMAND_LIST_TYPE_DIRECT p' /\ 0%nat ∉ @nil addr).
Proof.
  intros p'. split.
  - exact (proj1 (Begin_is_direct "main" startup) 0%nat p' eq_refl).
  - exact (proj2 (proj2 (proj2 (Begin_is_direct "main" startup)))
             [] 0%nat p' serial_startup eq_refl).
Defined.

(** ** Order of reuse *)

Lemma after_free_frame a type p :
  recognized type ->
  heap (after_free a type p) = heap p /\
  m_CommandContextPool (after_free a type p) = m_CommandContextPool p /\
  calls (after_free a type p) = calls p /\
  idle type (after_free a type p) = idle type p ++ [a] /\
  (forall type', recognized type' -> type' <> type ->
     idle type' (after_free a type p) = idle type' p).
Proof.
  intros Hr. repeat split.
  - rewrite (idle_assign type type (idle type p ++ [a]) p) by auto.
    destruct (decide (type = type)); [reflexivity | contradiction].
  - intros type' Hr' Hne.
    rewrite (idle_assign type type' (idle type p ++ [a]) p) by auto.
    destruct (decide (type' = type)); [contradiction | reflexivity].
Qed.

Lemma after_reuse_frame type front rest p :
  recognized type ->
  heap (after_reuse type front rest p) = heap p /\
  m_CommandContextPool (after_reuse type front rest p) = m_CommandContextPool p /\
  calls (after_reuse type front rest p) = calls p ++ [CallReset front] /\
  idle type (after_reuse type front rest p) = rest /\
  (forall type', recognized type' -> type' <> type ->
     idle type' (after_reuse type front rest p) = idle type' p).
Proof.
  intros Hr. repeat split.
  - rewrite (idle_assign type type rest p) by auto.
    destruct (decide (type = type)); [reflexivity | contradiction].
  - intros type' Hr' Hne. rewrite (idle_assign type type' rest p) by auto.
    destruct (decide (type' = type)); [contradiction | reflexivity].
Qed.

(** Freeing contexts of one type appends them to the idle queue of the
    type, in the order of the calls. *)
Lemma free_all_appends type l p :
  recognized type ->
  Forall (fun a => exists c, heap p !! a = Some c /\ m_Type c = type) l ->
  exists p', free_all l p = Ret (tt, p') /\
             heap p' = heap p /\
             m_CommandContextPool p' = m_CommandContextPool p /\
             calls p' = calls p /\
             idle type p' = idle type p ++ l.
Proof.
  intros Hr. revert p. induction l as [|a l IH]; intros p Hall.
  - exists p. rewrite app_nil_r. auto.
  - apply Forall_cons in Hall as [(c & Hc & Ht) Hall].
    cbn [free_all]. unfold bind.
    rewrite (FreeCommandContext_held a c p Hc) by (rewrite Ht; assumption).
    rewrite Ht.
    destruct (after_free_frame a type p Hr) as (Hh & Hp & Hcs & Hi & _).
    destruct (IH (after_free a type p)) as (p' & H' & Hh' & Hp' & Hcs' & Hi').
    { rewrite Hh. exact Hall. }
    exists p'. split; [exact H'|].
    rewrite Hh', Hp', Hcs', Hi', Hi, <- app_assoc. auto.
Qed.

(** Allocating takes the contexts from the front of the idle queue, as
    long as [Reset] accepts them. *)
Lemma allocate_n_takes_front type l rest p :
  recognized type ->
  idle type p = l ++ rest ->
  Forall (reusable type p) l ->
  exists p', allocate_n type (length l) p = Ret (l, p') /\
             heap p' = heap p /\
             m_CommandContextPool p' = m_CommandContextPool p /\
             calls p' = calls p ++ (CallReset <$> l) /\
             idle type p' = rest.
Proof.
  intros Hr. revert p. induction l as [|a l IH]; intros p Hq Hall.
  - exists p. cbn. rewrite app_nil_r. auto.
  - apply Forall_cons in Hall as [(c & Hc & Ht & Hres) Hall].
    cbn [length allocate_n]. unfold bind.
    rewrite (AllocateCommandContext_reuse type p a (l ++ rest) c) by assumption.
    destruct (after_reuse_frame type a (l ++ rest) p Hr) as (Hh & Hp & Hcs & Hi & _).
    destruct (IH (after_reuse type a (l ++ rest) p)) as (p' & H' & Hh' & Hp' & Hcs' & Hi').
    { exact Hi. }
    { unfold reusable. rewrite Hh. exact Hall. }
    exists p'. rewrite H'. unfold ret. split; [reflexivity|].
    rewrite Hh', Hp', Hcs', Hcs, <- app_assoc. auto.
Qed.

(** X1. The idle queue is first in, first out: contexts of one type that
    [Reset] accepts, freed one after the other into the empty idle queue
    of the type, are returned by the following calls of
    [AllocateCommandContext] in the order in which they were freed, each
    after one call of [Reset], and the queue is empty again. *)
Theorem freed_contexts_return_in_order type l p :
  recognized type -> idle type p = [] -> Forall (reusable type p) l ->
  exists p1 p2,
    free_all l p = Ret (tt, p1) /\
    idle type p1 = l /\
    allocate_n type (length l) p1 = Ret (l, p2) /\
    idle type p2 = [] /\
    heap p2 = heap p /\
    calls p2 = calls p ++ (CallReset <$> l).
Proof.
  intros Hr Hq Hall.
  destruct (free_all_appends type l p Hr) as (p1 & H1 & Hh1 & _ & Hcs1 & Hi1).
  { eapply Forall_impl; [exact Hall|]. intros a (c & Hc & Ht & _). eauto. }
  rewrite Hq in Hi1. cbn [app] in Hi1.
  destruct (allocate_n_takes_front type l [] p1 Hr) as (p2 & H2 & Hh2 & _ & Hcs2 & Hi2).
  { now rewrite app_nil_r. }
  { unfold reusable. rewrite Hh1. exact Hall. }
  exists p1, p2. rewrite Hh2, Hh1, Hcs2, Hcs1. repeat split; assumption.
Qed.

Lemma reusable_two_held (a : addr) : (a < 2)%nat -> reusable D3D12_COMMAND_LIST_TYPE_DIRECT two_held a.
Proof.
  intros Ha. destruct a as [|[|a]]; [| |lia].
  - exists (finished D3D12_COMMAND_LIST_TYPE_DIRECT 0).
    repeat split. discriminate.
  - exists (finished D3D12_COMMAND_LIST_TYPE_DIRECT 2).
    repeat split. discriminate.
Qed.

Lemma freed_contexts_return_in_order_witness :
  exists p1 p2,
    free_all [1%nat; 0%nat] two_held = Ret (tt, p1) /\
    idle D3D12_COMMAND_LIST_TYPE_DIRECT p1 = [1%nat; 0%nat] /\
    allocate_n D3D12_COMMAND_LIST_TYPE_DIRECT 2 p1 = Ret ([1%nat; 0%nat], p2) /\
    idle D3D12_COMMAND_LIST_TYPE_DIRECT p2 = [] /\
    heap p2 = heap two_held /\
    calls p2 = calls two_held ++ (CallReset <$> [1%nat; 0%nat]).
Proof.
  apply (freed_contexts_return_in_order D3D12_COMMAND_LIST_TYPE_DIRECT [1%nat; 0%nat] two_held).
  - left. reflexivity.
  - reflexivity.
  - repeat constructor; apply reusable_two_held; lia.
Defined.

(** X2. [FreeCommandContext] does not check whether the context is idle
    already: a context that [Reset] accepts, freed twice into the empty
    idle queue of its type, is returned by each of the next two calls of
    [AllocateCommandContext], with no call of [FreeCommandContext] in
    between. *)
Theorem FreeCommandContext_twice p a c :
  heap p !! a = Some c -> recognized (m_Type c) -> idle (m_Type c) p = [] ->
  resettable c ->
  exists p1 p2 p3 p4,
    FreeCommandContext (Some a) p = Ret (tt, p1) /\
    FreeCommandContext (Some a) p1 = Ret (tt, p2) /\
    idle (m_Type c) p2 = [a; a] /\
    AllocateCommandContext (m_Type c) p2 = Ret (a, p3) /\
    AllocateCommandContext (m_Type c) p3 = Ret (a, p4).
Proof.
  intros Hc Hr Hq Hres.
  destruct (after_free_frame a (m_Type c) p Hr) as (Hh1 & _ & _ & Hi1 & _).
  destruct (after_free_frame a (m_Type c) (after_free a (m_Type c) p) Hr)
    as (Hh2 & _ & _ & Hi2 & _).
  rewrite Hi1, Hq in Hi2. cbn [app] in Hi2. rewrite Hh1 in Hh2.
  destruct (after_reuse_frame (m_Type c) a [a]
              (after_free a (m_Type c) (after_free a (m_Type c) p)) Hr)
    as (Hh3 & _ & _ & Hi3 & _).
  rewrite Hh2 in Hh3.
  set (p1 := after_free a (m_Type c) p) in *.
  set (p2 := after_free a (m_Type c) p1) in *.
  set (p3 := after_reuse (m_Type c) a [a] p2) in *.
  exists p1, p2, p3, (after_reuse (m_Type c) a [] p3).
  split; [exact (FreeCommandContext_held a c p Hc Hr)|].
  split; [apply (FreeCommandContext_held a c p1); [now rewrite Hh1 | assumption]|].
  split; [exact Hi2|].
  split.
  - apply AllocateCommandContext_reuse with (c := c); auto.
  - apply AllocateCommandContext_reuse with (c := c); auto.
Qed.

Lemma FreeCommandContext_twice_witness :
  exists p1 p2 p3 p4,
    FreeCommandContext (Some 0%nat) two_held = Ret (tt, p1) /\
    FreeCommandContext (Some 0%nat) p1 = Ret (tt, p2) /\
    idle D3D12_COMMAND_LIST_TYPE_DIRECT p2 = [0%nat; 0%nat] /\
    AllocateCommandContext D3D12_COMMAND_LIST_TYPE_DIRECT p2 = Ret (0%nat, p3) /\
    AllocateCommandContext D3D12_COMMAND_LIST_TYPE_DIRECT p3 = Ret (0%nat, p4).
Proof.
  apply (FreeCommandContext_twice two_held 0%nat (finished D3D12_COMMAND_LIST_TYPE_DIRECT 0)).
  - reflexivity.
  - left. reflexivity.
  - reflexivity.
  - split; [discriminate | reflexivity].
Defined.

(** ** What the calls leave alone *)

(** X3. The pool never destroys, moves or unregisters a context:
    [AllocateCommandContext] leaves every existing context as it is and
    only extends the owning pools, [FreeCommandContext] changes neither
    the contexts nor the owning pools, and [Begin] changes nothing but the
    label of the context it returns. *)
Theorem contexts_persist p :
  (forall type a p', AllocateCommandContext type p = Ret (a, p') ->
     (forall b c, heap p !! b = Some c -> heap p' !! b = Some c) /\
     (forall type', recognized type' -> owned type' p `prefix_of` owned type' p')) /\
  (forall usedContext u p', FreeCommandContext usedContext p = Ret (u, p') ->
     heap p' = heap p /\ m_CommandContextPool p' = m_CommandContextPool p) /\
  (forall ID a p', Begin ID p = Ret (a, p') ->
     (forall b c, b <> a -> heap p !! b = Some c -> heap p' !! b = Some c) /\
     (forall c, heap p !! a = Some c ->
        exists c', heap p' !! a = Some c' /\
                   m_Type c' = m_Type c /\
                   m_CommandList c' = m_CommandList c /\
                   m_CurrentAllocator c' = m_CurrentAllocator c /\
                   m_numBarriersToFlush c' = m_numBarriersToFlush c /\
                   m_curPSO c' = m_curPSO c /\
                   m_ID c' = ID) /\
     (forall type', recognized type' -> owned type' p `prefix_of` owned type' p')).
Proof.
  assert (HA : forall type a p', AllocateCommandContext type p = Ret (a, p') ->
     (forall b c, heap p !! b = Some c -> heap p' !! b = Some c) /\
     (forall type', recognized type' -> owned type' p `prefix_of` owned type' p')).
  { intros type a p' H.
    apply AllocateCommandContext_Ret in H as [Hr [(Hq & -> & ->) | H]].
    - split.
      + intros b c Hc. unfold after_new. project. now apply lookup_app_l_Some.
      + intros type' Hr'.
        rewrite (owned_assign type type' (owned type p ++ [length (heap p)]) p
                   (after_new type p)) by auto.
        destruct (decide (type' = type)) as [->|]; [|reflexivity].
        now exists [length (heap p)].
    - destruct H as (rest & c & _ & _ & _ & _ & ->). split; [auto|]. reflexivity. }
  split; [exact HA|]. split.
  - intros usedContext u p' H.
    apply FreeCommandContext_Ret in H as (a & c & _ & _ & _ & ->). auto.
  - intros ID a p' H. rewrite Begin_Allocate in H.
    destruct (AllocateCommandContext _ p) as [[a1 p1]|f] eqn:H1; [|discriminate].
    destruct (HA _ _ _ H1) as [Hkeep Hown].
    destruct (heap p1 !! a1) as [c1|] eqn:Hc1; [|discriminate].
    injection H as <- <-. split; [|split].
    + intros b c Hne Hc. unfold after_SetID. project.
      rewrite list_lookup_insert_ne by congruence. auto.
    + intros c Hc. apply Hkeep in Hc.
      pose proof (eq_trans (eq_sym Hc) Hc1) as E. injection E as ->.
      eexists. split.
      * unfold after_SetID. project. apply list_lookup_insert_eq.
        eapply lookup_lt_Some, Hc1.
      * project. repeat split.
    + exact Hown.
Qed.

Lemma contexts_persist_witness :
  (forall b c, heap two_idle !! b = Some c ->
     heap (after_reuse D3D12_COMMAND_LIST_TYPE_DIRECT 0%nat [1%nat] two_idle) !! b = Some c) /\
  (forall type', recognized type' ->
     owned type' two_idle `prefix_of`
     owned type' (after_reuse D3D12_COMMAND_LIST_TYPE_DIRECT 0%nat [1%nat] two_idle)).
Proof.
  exact (proj1 (contexts_persist two_idle) D3D12_COMMAND_LIST_TYPE_DIRECT 0%nat
           (after_reuse D3D12_COMMAND_LIST_TYPE_DIRECT 0%nat [1%nat] two_idle) eq_refl).
Defined.

(** X4. A call touches one idle queue only: [AllocateCommandContext(type)]
    removes the front entry of the idle queue of [type], if there is one,
    [FreeCommandContext] adds the context at the back of the idle queue of
    the context's own type, and both leave the idle queues of the other
    types as they are. *)
Theorem idle_queues_frame p :
  (forall type a p', AllocateCommandContext type p = Ret (a, p') ->
     idle type p' = tail (idle type p) /\
     (forall type', recognized type' -> type' <> type -> idle type' p' = idle type' p)) /\
  (forall a c u p', heap p !! a = Some c ->
     FreeCommandContext (Some a) p = Ret (u, p') ->
     idle (m_Type c) p' = idle (m_Type c) p ++ [a] /\
     (forall type', recognized type' -> type' <> m_Type c -> idle type' p' = idle type' p)).
Proof.
  split.
  - intros type a p' H.
    apply AllocateCommandContext_Ret in H as [Hr [(Hq & -> & ->) | H]].
    + change (idle type (after_new type p)) with (idle type p). rewrite Hq.
      split; [reflexivity|]. reflexivity.
    + destruct H as (rest & c & Hq & _ & _ & _ & ->). rewrite Hq. cbn [tail].
      destruct (after_reuse_frame type a rest p Hr) as (_ & _ & _ & Hi & Ho). auto.
  - intros a c u p' Hc H.
    apply FreeCommandContext_Ret in H as (a' & c' & Ha' & Hc' & Hr & ->).
    injection Ha' as <-. rewrite Hc in Hc'. injection Hc' as <-.
    destruct (after_free_frame a (m_Type c) p Hr) as (_ & _ & _ & Hi & Ho). auto.
Qed.

Lemma idle_queues_frame_witness :
  idle D3D12_COMMAND_LIST_TYPE_DIRECT
    (after_free 1%nat D3D12_COMMAND_LIST_TYPE_DIRECT two_held) =
  idle D3D12_COMMAND_LIST_TYPE_DIRECT two_held ++ [1%nat] /\
  (forall type', recognized type' -> type' <> D3D12_COMMAND_LIST_TYPE_DIRECT ->
     idle type' (after_free 1%nat D3D12_COMMAND_LIST_TYPE_DIRECT two_held) =
     idle type' two_held).
Proof.
  exact (proj2 (idle_queues_frame two_held) 1%nat
           (finished D3D12_COMMAND_LIST_TYPE_DIRECT 2) tt
           (after_free 1%nat D3D12_COMMAND_LIST_TYPE_DIRECT two_held) eq_refl eq_refl).
Defined.

(** ** When [AllocateCommandContext] returns *)

(** X5. [AllocateCommandContext] returns exactly when the type is one of
    the four and either the idle queue of the type is empty or the
    context at its front is a live context of that type that [Reset]
    accepts.  For one of the four types the constructing branch never
    fails; a failure is an assertion failure, a dangling pointer or the
    read of the allocator pointer that was never set, all on the context
    at the front of the queue. *)
Theorem AllocateCommandContext_returns_iff type p :
  ((exists a p', AllocateCommandContext type p = Ret (a, p')) <->
   recognized type /\
   (idle type p = [] \/
    exists front, head (idle type p) = Some front /\ reusable type p front)) /\
  (forall f, recognized type -> AllocateCommandContext type p = Fault f ->
     idle type p <> [] /\
     (f = AssertionFailure \/ f = InvalidPointer \/ f = IndeterminateRead)).
Proof.
  split.
  - split.
    + intros (a & p' & H).
      apply AllocateCommandContext_Ret in H as [Hr [(Hq & _) | H]].
      * auto.
      * destruct H as (rest & c & Hq & Hc & Hres & Ht & _).
        split; [assumption|]. right. exists a. rewrite Hq. split; [reflexivity|].
        exists c. auto.
    + intros [Hr [Hq | (front & Hh & c & Hc & Ht & Hres)]].
      * rewrite AllocateCommandContext_new by assumption. eauto.
      * destruct (idle type p) as [|front' rest] eqn:Hq; [discriminate|].
        injection Hh as ->.
        rewrite (AllocateCommandContext_reuse type p front rest c) by assumption. eauto.
  - intros f Hr H.
    destruct (idle type p) as [|front rest] eqn:Hq.
    + rewrite AllocateCommandContext_new in H by assumption. discriminate.
    + split; [discriminate|].
      rewrite (AllocateCommandContext_front type p front rest Hr Hq) in H.
      unfold Reset, bind, record, load in H. project.
      destruct (heap p !! front) as [c|]; [|injection H as <-; auto].
      destruct (m_CommandList c); [|injection H as <-; auto].
      destruct (m_CurrentAllocator c) as [|[h|]]; try (injection H as <-; auto).
      unfold ret in H. project.
      destruct (heap p !! front) as [c'|]; [|injection H as <-; auto].
      destruct (m_Type c' =? type); [discriminate | injection H as <-; auto].
Qed.

Lemma AllocateCommandContext_returns_iff_witness :
  idle D3D12_COMMAND_LIST_TYPE_DIRECT
    (after_free 0%nat D3D12_COMMAND_LIST_TYPE_DIRECT recording) <> [] /\
  (AssertionFailure = AssertionFailure \/ AssertionFailure = InvalidPointer \/
   AssertionFailure = IndeterminateRead).
Proof.
  exact (proj2 (AllocateCommandContext_returns_iff D3D12_COMMAND_LIST_TYPE_DIRECT
                  (after_free 0%nat D3D12_COMMAND_LIST_TYPE_DIRECT recording))
           AssertionFailure (or_introl eq_refl) eq_refl).
Defined.

(** X6. No path of [AllocateCommandContext] writes the barrier count or
    the bound pipeline state: a context that is constructed is handed out
    with a barrier count that was never set and no pipeline state, a
    context that is reused with the count and the pipeline state it had
    when it was freed. *)
Theorem AllocateCommandContext_keeps_rendering_state type p a p' :
  AllocateCommandContext type p = Ret (a, p') ->
  exists c', heap p' !! a = Some c' /\
    m_numBarriersToFlush c' =
      from_option m_numBarriersToFlush Indeterminate (heap p !! a) /\
    m_curPSO c' = from_option m_curPSO None (heap p !! a).
Proof.
  intros H. apply AllocateCommandContext_Ret in H as [Hr [(Hq & -> & ->) | H]].
  - exists (initialized type p). split.
    + unfold after_new. project. now apply list_lookup_middle.
    + rewrite lookup_ge_None_2 by lia. auto.
  - destruct H as (rest & c & _ & Hc & _ & _ & ->). exists c.
    split; [exact Hc|]. rewrite Hc. auto.
Qed.

Lemma AllocateCommandContext_keeps_rendering_state_witness :
  exists c', heap (after_reuse D3D12_COMMAND_LIST_TYPE_DIRECT 0%nat [1%nat] two_idle)
               !! 0%nat = Some c' /\
    m_numBarriersToFlush c' = Holds 3 /\
    m_curPSO c' = Some 7%nat.
Proof.
  exact (AllocateCommandContext_keeps_rendering_state D3D12_COMMAND_LIST_TYPE_DIRECT
           two_idle 0%nat
           (after_reuse D3D12_COMMAND_LIST_TYPE_DIRECT 0%nat [1%nat] two_idle) eq_refl).
Defined.

(** ** When [FreeCommandContext] returns *)

(** X12. [FreeCommandContext] returns exactly for a pointer to a live
    context whose type is one of the four; a null pointer fails its
    assertion, a pointer to no context is followed all the same, and a
    context of another type subscripts the array of idle queues past its
    end.  Nothing else is checked. *)
Theorem FreeCommandContext_returns_iff usedContext p :
  ((exists p', FreeCommandContext usedContext p = Ret (tt, p')) <->
   exists a c, usedContext = Some a /\ heap p !! a = Some c /\ recognized (m_Type c)) /\
  FreeCommandContext None p = Fault AssertionFailure /\
  (forall a, heap p !! a = None -> FreeCommandContext (Some a) p = Fault InvalidPointer) /\
  (forall a c, heap p !! a = Some c -> ~ recognized (m_Type c) ->
     FreeCommandContext (Some a) p = Fault IndexOutOfRange).
Proof.
  split; [|split; [reflexivity|split]].
  - split.
    + intros (p' & H). apply FreeCommandContext_Ret in H as (a & c & Ha & Hc & Hr & _).
      eauto.
    + intros (a & c & -> & Hc & Hr). rewrite (FreeCommandContext_held a c p Hc Hr). eauto.
  - intros a Hc. unfold FreeCommandContext, bind, load. now rewrite Hc.
  - intros a c Hc Hr. unfold FreeCommandContext, bind, load, get, lift, AvailableContextSize.
    rewrite Hc. now rewrite subscript_unrecognized.
Qed.

Lemma FreeCommandContext_returns_iff_witness :
  FreeCommandContext (Some 5%nat) two_held = Fault InvalidPointer /\
  FreeCommandContext (Some 0%nat)
    (after_use 0%nat (finished 6 0) two_held) = Fault IndexOutOfRange.
Proof.
  split.
  - exact (proj1 (proj2 (proj2 (FreeCommandContext_returns_iff None two_held)))
             5%nat eq_refl).
  - refine (proj2 (proj2 (proj2 (FreeCommandContext_returns_iff None
             (after_use 0%nat (finished 6 0) two_held))))
             0%nat (finished 6 0) eq_refl _).
    rewrite recognized_range. cbn. lia.
Defined.

(** ** Accounting under serial use *)

Lemma constructions_app cs cs' :
  constructions (cs ++ cs') = constructions cs ++ constructions cs'.
Proof. apply flat_map_app. Qed.

Lemma initializations_app cs cs' :
  initializations (cs ++ cs') = initializations cs ++ initializations cs'.
Proof. apply flat_map_app. Qed.

Lemma resets_app cs cs' : resets (cs ++ cs') = resets cs ++ resets cs'.
Proof. apply flat_map_app. Qed.

Lemma initialized_before_reset_snoc inits cs c :
  initialized_before_reset inits cs ->
  match c with
  | CallReset a => a ∈ inits \/ a ∈ initializations cs
  | _ => True
  end ->
  initialized_before_reset inits (cs ++ [c]).
Proof.
  revert inits. induction cs as [|c0 cs IH]; intros inits Hcs Hc.
  - destruct c as [a|a|a]; cbn; auto. destruct Hc as [Hc|Hc]; [auto | inversion Hc].
  - destruct c0 as [b|b|b]; cbn [app initialized_before_reset] in *.
    + apply IH; [assumption|]. destruct c; auto.
    + apply IH; [assumption|]. destruct c as [a|a|a]; auto.
      cbn in Hc. destruct Hc as [Hc|Hc]; [left; now right|].
      apply elem_of_cons in Hc as [->|Hc]; [left; left | now right].
    + destruct Hcs as [Hb Hcs]. split; [assumption|].
      apply IH; [assumption|]. destruct c; auto.
Qed.

Lemma accounted_startup : accounted startup [].
Proof.
  split; try reflexivity.
  - intros a c Hc. destruct a; discriminate.
  - intros type Hr. each_type Hr; constructor.
  - intros type a Hr Ha. each_type Hr; inversion Ha.
  - intros a Ha. inversion Ha.
Qed.

Lemma owned_in_heap p held type a :
  accounted p held -> recognized type -> a ∈ owned type p -> (a < length (heap p))%nat.
Proof.
  intros A Hr Ha. destruct (owned_typed _ _ A type a Hr Ha) as (c & Hc & _).
  eapply lookup_lt_Some, Hc.
Qed.

Lemma accounted_new p held type :
  accounted p held -> recognized type ->
  accounted (after_new type p) (length (heap p) :: held).
Proof.
  intros A Hr.
  assert (Howned : forall type', recognized type' ->
            owned type' (after_new type p) =
            if decide (type' = type) then owned type p ++ [length (heap p)]
            else owned type' p).
  { intros type' Hr'. now apply owned_assign. }
  split.
  - intros a c Hc. unfold after_new in Hc. project.
    change (idle (m_Type c) (after_new type p)) with (idle (m_Type c) p).
    apply lookup_app_Some in Hc as [Hc | [Hle Hc]].
    + destruct (all_placed _ _ A a c Hc) as [Hh | Hi]; [left; now right | now right].
    + destruct (a - length (heap p))%nat as [|n] eqn:En; [|destruct n; discriminate].
      left. apply elem_of_cons. left. lia.
  - intros type' Hr'. rewrite Howned by assumption.
    destruct (decide (type' = type)) as [->|]; [|exact (owned_NoDup _ _ A type' Hr')].
    apply NoDup_app. split; [exact (owned_NoDup _ _ A type Hr)|].
    split; [|apply NoDup_singleton].
    intros a Ha Ha'. apply list_elem_of_singleton in Ha' as ->.
    pose proof (owned_in_heap _ _ _ _ A Hr Ha). lia.
  - intros type' a Hr' Ha. rewrite Howned in Ha by assumption.
    unfold after_new. project.
    assert (Hold : a ∈ owned type' p ->
              exists c, (heap p ++ [initialized type p]) !! a = Some c /\ m_Type c = type').
    { intros Hin. destruct (owned_typed _ _ A type' a Hr' Hin) as (c & Hc & Ht).
      exists c. split; [now apply lookup_app_l_Some | assumption]. }
    destruct (decide (type' = type)) as [->|]; [|now apply Hold].
    apply elem_of_app in Ha as [Ha|Ha]; [now apply Hold|].
    apply list_elem_of_singleton in Ha as ->.
    exists (initialized type p). split; [now apply list_lookup_middle | reflexivity].
  - unfold after_new. project. rewrite constructions_app, length_app, Nat.add_1_r, seq_S.
    now rewrite (constructed_once _ _ A).
  - unfold after_new. project. rewrite initializations_app, length_app, Nat.add_1_r, seq_S.
    now rewrite (initialized_once _ _ A).
  - intros a Ha. unfold after_new in *. project.
    rewrite resets_app, length_app in *. cbn in Ha. rewrite app_nil_r in Ha.
    pose proof (resets_exist _ _ A a Ha). lia.
  - unfold after_new. project.
    change (calls p ++ [CallConstructor (length (heap p)); CallInitialize (length (heap p))])
      with (calls p ++ [CallConstructor (length (heap p))] ++ [CallInitialize (length (heap p))]).
    rewrite app_assoc.
    apply initialized_before_reset_snoc; [|exact I].
    apply initialized_before_reset_snoc; [|exact I].
    exact (calls_ordered _ _ A).
Qed.

Lemma accounted_reuse p held type a rest c :
  consistent p held -> accounted p held -> recognized type -> idle type p = a :: rest ->
  heap p !! a = Some c -> m_Type c = type ->
  accounted (after_reuse type a rest p) (a :: held).
Proof.
  intros C A Hr Hq Hc Ht.
  destruct (after_reuse_frame type a rest p Hr) as (_ & _ & _ & Hi & Ho).
  split.
  - intros b cb Hcb. change (heap (after_reuse type a rest p)) with (heap p) in Hcb.
    destruct (all_placed _ _ A b cb Hcb) as [Hh | Hin]; [left; now right|].
    assert (Hrb : recognized (m_Type cb)) by exact (proj1 (heap_owned _ _ C b cb Hcb)).
    destruct (decide (m_Type cb = type)) as [E|Hne].
    + rewrite E, Hq in Hin. apply elem_of_cons in Hin as [->|Hin].
      * left. left.
      * right. now rewrite E, Hi.
    + right. now rewrite Ho.
  - exact (owned_NoDup _ _ A).
  - exact (owned_typed _ _ A).
  - unfold after_reuse. project. rewrite constructions_app. cbn. rewrite app_nil_r.
    exact (constructed_once _ _ A).
  - unfold after_reuse. project. rewrite initializations_app. cbn. rewrite app_nil_r.
    exact (initialized_once _ _ A).
  - intros b Hb. unfold after_reuse in *. project. rewrite resets_app in Hb.
    apply elem_of_app in Hb as [Hb|Hb]; [exact (resets_exist _ _ A b Hb)|].
    cbn in Hb. apply list_elem_of_singleton in Hb as ->. eapply lookup_lt_Some, Hc.
  - unfold after_reuse. project.
    apply initialized_before_reset_snoc; [exact (calls_ordered _ _ A)|].
    right. rewrite (initialized_once _ _ A). apply elem_of_seq.
    apply lookup_lt_Some in Hc. lia.
Qed.


Lemma accounted_Allocate p held type a p' :
  consistent p held -> accounted p held ->
  AllocateCommandContext type p = Ret (a, p') ->
  accounted p' (a :: held).
Proof.
  intros C A H. apply AllocateCommandContext_Ret in H as [Hr [(Hq & -> & ->) | H]].
  - now apply accounted_new.
  - destruct H as (rest & c & Hq & Hc & _ & Ht & ->). now apply accounted_reuse with c.
Qed.

Lemma accounted_use p held a c c' :
  accounted p held -> a ∈ held -> heap p !! a = Some c -> m_Type c' = m_Type c ->
  accounted (after_use a c' p) held.
Proof.
  intros A Ha Hc Ht.
  assert (Hlook : forall b cb, heap (after_use a c' p) !! b = Some cb ->
            exists cb0, heap p !! b = Some cb0 /\ m_Type cb0 = m_Type cb /\
                        (b <> a -> cb0 = cb)).
  { intros b cb Hcb. unfold after_use in Hcb. project.
    destruct (decide (a = b)) as [->|Hne].
    - rewrite list_lookup_insert_eq in Hcb by (eapply lookup_lt_Some, Hc).
      injection Hcb as <-. exists c. split; [assumption|]. split; [auto | congruence].
    - rewrite list_lookup_insert_ne in Hcb by assumption. exists cb. auto. }
  split.
  - intros b cb Hcb. change (idle (m_Type cb) (after_use a c' p)) with (idle (m_Type cb) p).
    destruct (Hlook b cb Hcb) as (cb0 & Hcb0 & Htb & _). rewrite <- Htb.
    exact (all_placed _ _ A b cb0 Hcb0).
  - exact (owned_NoDup _ _ A).
  - intros type b Hr Hb. change (owned type (after_use a c' p)) with (owned type p) in Hb.
    destruct (owned_typed _ _ A type b Hr Hb) as (cb & Hcb & Htb).
    unfold after_use. project. destruct (decide (a = b)) as [->|Hne].
    + exists c'. split.
      * apply list_lookup_insert_eq. eapply lookup_lt_Some, Hc.
      * pose proof (eq_trans (eq_sym Hc) Hcb) as E. injection E as ->. congruence.
    + exists cb. split; [now rewrite list_lookup_insert_ne | assumption].
  - unfold after_use. project. rewrite length_insert. exact (constructed_once _ _ A).
  - unfold after_use. project. rewrite length_insert. exact (initialized_once _ _ A).
  - intros b Hb. unfold after_use. project. rewrite length_insert.
    exact (resets_exist _ _ A b Hb).
  - exact (calls_ordered _ _ A).
Qed.

Lemma accounted_Free p held1 a held2 p' :
  consistent p (held1 ++ a :: held2) -> accounted p (held1 ++ a :: held2) ->
  FreeCommandContext (Some a) p = Ret (tt, p') ->
  accounted p' (held1 ++ held2).
Proof.
  intros C A H. apply FreeCommandContext_Ret in H as (a' & c & Ha' & Hc & Hr & ->).
  injection Ha' as <-.
  destruct (after_free_frame a (m_Type c) p Hr) as (_ & _ & _ & Hi & Ho).
  split.
  - intros b cb Hcb. change (heap (after_free a (m_Type c) p)) with (heap p) in Hcb.
    assert (Hrb : recognized (m_Type cb)) by exact (proj1 (heap_owned _ _ C b cb Hcb)).
    assert (Hidle : b ∈ idle (m_Type cb) p -> b ∈ idle (m_Type cb) (after_free a (m_Type c) p)).
    { intros Hin. destruct (decide (m_Type cb = m_Type c)) as [E|Hne].
      - rewrite E, Hi. apply elem_of_app. left. now rewrite <- E.
      - now rewrite Ho. }
    destruct (decide (b = a)) as [->|Hne].
    + right. pose proof (eq_trans (eq_sym Hc) Hcb) as E. injection E as ->.
      rewrite Hi. apply elem_of_app. right. left.
    + destruct (all_placed _ _ A b cb Hcb) as [Hh | Hin]; [|right; now apply Hidle].
      left. apply elem_of_app in Hh as [Hh|Hh]; apply elem_of_app; [now left|].
      apply elem_of_cons in Hh as [->|Hh]; [contradiction | now right].
  - exact (owned_NoDup _ _ A).
  - exact (owned_typed _ _ A).
  - exact (constructed_once _ _ A).
  - exact (initialized_once _ _ A).
  - exact (resets_exist _ _ A).
  - exact (calls_ordered _ _ A).
Qed.

Lemma accounted_Begin p held ID a p' :
  consistent p held -> accounted p held -> Begin ID p = Ret (a, p') ->
  accounted p' (a :: held).
Proof.
  intros C A H. rewrite Begin_Allocate in H.
  destruct (AllocateCommandContext _ p) as [[a1 p1]|f] eqn:HA; [|discriminate].
  destruct (heap p1 !! a1) as [c|] eqn:Hc; [|discriminate].
  injection H as <- <-.
  apply (accounted_use p1 (a1 :: held) a1 c); [| left | assumption | reflexivity].
  eapply accounted_Allocate; eassumption.
Qed.

Lemma serial_accounted p held : serial p held -> accounted p held.
Proof.
  induction 1 as [|p held type a p' S IH H|p held ID a p' S IH H
                  |p held a c c' S IH Ha Hc Ht|p held1 a held2 p' S IH H].
  - apply accounted_startup.
  - exact (accounted_Allocate p held type a p' (serial_consistent _ _ S) IH H).
  - exact (accounted_Begin p held ID a p' (serial_consistent _ _ S) IH H).
  - exact (accounted_use p held a c c' IH Ha Hc Ht).
  - exact (accounted_Free p held1 a held2 p' (serial_consistent _ _ S) IH H).
Qed.

(** ** The calls under serial use *)

(** X7. Under serial use the idle queues hold only live contexts of their
    own type that nobody holds, so [AllocateCommandContext] for one of the
    four types never follows a dangling pointer and never fails its type
    assertion: with a context waiting it returns that context when
    [Reset] accepts it, and fails in [Reset] otherwise. *)
Theorem serial_AllocateCommandContext p held type :
  serial p held -> recognized type ->
  match idle type p with
  | [] => AllocateCommandContext type p = Ret (length (heap p), after_new type p)
  | front :: rest =>
      exists c, heap p !! front = Some c /\ m_Type c = type /\ (front ∉ held) /\
        ((resettable c /\
          AllocateCommandContext type p = Ret (front, after_reuse type front rest p)) \/
         (~ resettable c /\
          (AllocateCommandContext type p = Fault AssertionFailure \/
           AllocateCommandContext type p = Fault IndeterminateRead)))
  end.
Proof.
  intros S Hr. apply serial_consistent in S as C.
  destruct (idle type p) as [|front rest] eqn:Hq.
  - now apply AllocateCommandContext_new.
  - destruct (idle_typed _ _ C type front Hr) as (Hnh & c & Hc & Ht).
    { rewrite Hq. left. }
    exists c. split; [assumption|]. split; [assumption|]. split; [assumption|].
    destruct (m_CommandList c) as [h|] eqn:Hl;
      [destruct (m_CurrentAllocator c) as [|[h'|]] eqn:Ha|].
    + right. split; [intros [_ E]; rewrite Ha in E; discriminate|]. right.
      rewrite (AllocateCommandContext_front type p front rest Hr Hq).
      unfold Reset, bind, record, load. project. now rewrite Hc, Hl, Ha.
    + right. split; [intros [_ E]; rewrite Ha in E; discriminate|]. left.
      rewrite (AllocateCommandContext_front type p front rest Hr Hq).
      unfold Reset, bind, record, load. project. now rewrite Hc, Hl, Ha.
    + left. assert (Hres : resettable c) by (split; [rewrite Hl; discriminate | exact Ha]).
      split; [exact Hres|]. now apply AllocateCommandContext_reuse with c.
    + right. split; [intros [E _]; contradiction|]. left.
      rewrite (AllocateCommandContext_front type p front rest Hr Hq).
      unfold Reset, bind, record, load. project. now rewrite Hc, Hl.
Qed.

Lemma serial_AllocateCommandContext_witness :
  exists c, heap two_idle !! 0%nat = Some c /\
    m_Type c = D3D12_COMMAND_LIST_TYPE_DIRECT /\ (0%nat ∉ @nil addr) /\
    ((resettable c /\
      AllocateCommandContext D3D12_COMMAND_LIST_TYPE_DIRECT two_idle =
        Ret (0%nat, after_reuse D3D12_COMMAND_LIST_TYPE_DIRECT 0%nat [1%nat] two_idle)) \/
     (~ resettable c /\
      (AllocateCommandContext D3D12_COMMAND_LIST_TYPE_DIRECT two_idle = Fault AssertionFailure \/
       AllocateCommandContext D3D12_COMMAND_LIST_TYPE_DIRECT two_idle = Fault IndeterminateRead))).
Proof.
  exact (serial_AllocateCommandContext two_idle [] D3D12_COMMAND_LIST_TYPE_DIRECT
           serial_two_idle (or_introl eq_refl)).
Defined.

(** X8. Under serial use [FreeCommandContext] on a context that is held
    never fails: the context is a live one of one of the four types, it
    is in no idle queue, and the call puts it at the back of the idle
    queue of its type. *)
Theorem serial_FreeCommandContext p held a :
  serial p held -> a ∈ held ->
  exists c, heap p !! a = Some c /\ recognized (m_Type c) /\
    (forall type, recognized type -> a ∉ idle type p) /\
    FreeCommandContext (Some a) p = Ret (tt, after_free a (m_Type c) p) /\
    idle (m_Type c) (after_free a (m_Type c) p) = idle (m_Type c) p ++ [a].
Proof.
  intros S Ha. apply serial_consistent in S as C.
  destruct (held_typed _ _ C a Ha) as (c & Hc & Hr).
  exists c. split; [assumption|]. split; [assumption|]. split.
  - intros type Hrt Hin. now destruct (idle_typed _ _ C type a Hrt Hin) as (Hnh & _).
  - split; [now apply FreeCommandContext_held|].
    now destruct (after_free_frame a (m_Type c) p Hr) as (_ & _ & _ & Hi & _).
Qed.

Lemma serial_FreeCommandContext_witness :
  exists c, heap two_held !! 1%nat = Some c /\ recognized (m_Type c) /\
    (forall type, recognized type -> 1%nat ∉ idle type two_held) /\
    FreeCommandContext (Some 1%nat) two_held = Ret (tt, after_free 1%nat (m_Type c) two_held) /\
    idle (m_Type c) (after_free 1%nat (m_Type c) two_held) =
      idle (m_Type c) two_held ++ [1%nat].
Proof.
  apply (serial_FreeCommandContext two_held [1%nat; 0%nat] 1%nat serial_two_held).
  left.
Defined.

(** X9. Under serial use no context is lost and none is in two places:
    every context ever constructed is either held, and then in no idle
    queue, or in the idle queue of its own type, and then neither held
    nor in the idle queue of another type. *)
Theorem serial_contexts_placed p held a c :
  serial p held -> heap p !! a = Some c ->
  recognized (m_Type c) /\
  ((a ∈ held /\ forall type, recognized type -> a ∉ idle type p) \/
   ((a ∉ held) /\ a ∈ idle (m_Type c) p /\
    forall type, recognized type -> type <> m_Type c -> a ∉ idle type p)).
Proof.
  intros S Hc. apply serial_consistent in S as C. apply serial_accounted in S as A.
  destruct (heap_owned _ _ C a c Hc) as [Hr _]. split; [assumption|].
  destruct (all_placed _ _ A a c Hc) as [Hh | Hi].
  - left. split; [assumption|]. intros type Hrt Hin.
    now destruct (idle_typed _ _ C type a Hrt Hin) as (Hnh & _).
  - right. destruct (idle_typed _ _ C (m_Type c) a Hr Hi) as (Hnh & _).
    split; [assumption|]. split; [assumption|]. intros type Hrt Hne Hin.
    destruct (idle_typed _ _ C type a Hrt Hin) as (_ & c' & Hc' & Ht').
    pose proof (eq_trans (eq_sym Hc) Hc') as E. injection E as ->. congruence.
Qed.

Lemma serial_contexts_placed_witness :
  recognized (m_Type (finished D3D12_COMMAND_LIST_TYPE_DIRECT 2)) /\
  ((1%nat ∈ @nil addr /\ forall type, recognized type -> 1%nat ∉ idle type two_idle) \/
   ((1%nat ∉ @nil addr) /\
    1%nat ∈ idle (m_Type (finished D3D12_COMMAND_LIST_TYPE_DIRECT 2)) two_idle /\
    forall type, recognized type ->
      type <> m_Type (finished D3D12_COMMAND_LIST_TYPE_DIRECT 2) ->
      1%nat ∉ idle type two_idle)).
Proof.
  exact (serial_contexts_placed two_idle [] 1%nat (finished D3D12_COMMAND_LIST_TYPE_DIRECT 2)
           serial_two_idle eq_refl).
Defined.

(** X10. Under serial use every context is owned once: it is registered
    in the owning pool of its own type and in no other, no pool lists a
    context twice, and a pool lists only live contexts of its type. *)
Theorem serial_contexts_owned p held :
  serial p held ->
  (forall type, recognized type -> NoDup (owned type p)) /\
  (forall a c, heap p !! a = Some c ->
     a ∈ owned (m_Type c) p /\
     forall type, recognized type -> type <> m_Type c -> a ∉ owned type p) /\
  (forall type a, recognized type -> a ∈ owned type p ->
     exists c, heap p !! a = Some c /\ m_Type c = type).
Proof.
  intros S. apply serial_consistent in S as C. apply serial_accounted in S as A.
  split; [exact (owned_NoDup _ _ A)|]. split; [|exact (owned_typed _ _ A)].
  intros a c Hc. split; [exact (proj2 (heap_owned _ _ C a c Hc))|].
  intros type Hrt Hne Hin.
  destruct (owned_typed _ _ A type a Hrt Hin) as (c' & Hc' & Ht').
  pose proof (eq_trans (eq_sym Hc) Hc') as E. injection E as ->. congruence.
Qed.

Lemma serial_contexts_owned_witness :
  (forall type, recognized type -> NoDup (owned type two_held)) /\
  (forall a c, heap two_held !! a = Some c ->
     a ∈ owned (m_Type c) two_held /\
     forall type, recognized type -> type <> m_Type c -> a ∉ owned type two_held) /\
  (forall type a, recognized type -> a ∈ owned type two_held ->
     exists c, heap two_held !! a = Some c /\ m_Type c = type).
Proof. exact (serial_contexts_owned two_held [1%nat; 0%nat] serial_two_held). Defined.

(** X11. Under serial use the constructor and [Initialize] have run
    exactly once for every context, in the order of construction, and
    every call of [Reset] was on a context that exists and that
    [Initialize] had been called on before. *)
Theorem serial_lifecycle p held :
  serial p held ->
  constructions (calls p) = seq 0 (length (heap p)) /\
  initializations (calls p) = seq 0 (length (heap p)) /\
  (forall a, a ∈ resets (calls p) -> (a < length (heap p))%nat) /\
  initialized_before_reset [] (calls p).
Proof.
  intros S. apply serial_accounted in S as A.
  split; [exact (constructed_once _ _ A)|].
  split; [exact (initialized_once _ _ A)|].
  split; [exact (resets_exist _ _ A) | exact (calls_ordered _ _ A)].
Qed.

Lemma serial_reused :
  serial (after_reuse D3D12_COMMAND_LIST_TYPE_DIRECT 0%nat [1%nat] two_idle) [0%nat].
Proof.
  exact (serial_Allocate two_idle [] D3D12_COMMAND_LIST_TYPE_DIRECT 0%nat
           (after_reuse D3D12_COMMAND_LIST_TYPE_DIRECT 0%nat [1%nat] two_idle)
           serial_two_idle eq_refl).
Qed.

Lemma serial_lifecycle_witness :
  let p := after_reuse D3D12_COMMAND_LIST_TYPE_DIRECT 0%nat [1%nat] two_idle in
  constructions (calls p) = seq 0 (length (heap p)) /\
  initializations (calls p) = seq 0 (length (heap p)) /\
  (forall a, a ∈ resets (calls p) -> (a < length (heap p))%nat) /\
  initialized_before_reset [] (calls p).
Proof.
  exact (serial_lifecycle
           (after_reuse D3D12_COMMAND_LIST_TYPE_DIRECT 0%nat [1%nat] two_idle) [0%nat]
           serial_reused).
Defined.

End PoolFacts.

(** * Facts about the manager called from several threads *)

Module InterleavedFacts.
Import Pool PoolFacts Interleaved.

(** A thread that is not interrupted makes the call of [Module Pool]. *)
Lemma alone_AllocateCommandContext type p :
  alone 6 (BindQueue type) p =
  match AllocateCommandContext type p with
  | Ret (a, p') => Ret (Received a, p')
  | Fault f => Fault f
  end.
Proof.
  destruct (decide (0 <= type < 4)) as [Hr | Hr].
  2: { rewrite <- recognized_range in Hr.
       rewrite AllocateCommandContext_unrecognized by assumption.
       unfold alone, step, bind, get, lift, AvailableContextSize.
       now rewrite subscript_unrecognized. }
  apply recognized_range in Hr.
  destruct (idle type p) as [|front rest] eqn:Hq.
  - rewrite AllocateCommandContext_new by assumption.
    unfold alone, bind. unfold step at 1, bind, get, lift, AvailableContextSize.
    rewrite subscript_recognized by assumption. unfold ret at 1.
    unfold step at 1, bind, get. rewrite Hq. unfold ret at 1.
    unfold step at 1, bind, new_CommandContext, ret at 1.
    unfold step at 1, bind, get, lift, ContextPoolSize. project.
    rewrite subscript_recognized by assumption. unfold set_pool, ret at 1.
    unfold step at 1, bind, Initialize, bind, record, load, CreateNewCommandList, store.
    project. rewrite list_lookup_middle by reflexivity. project. unfold ret at 1.
    unfold step, bind, load. project.
    rewrite insert_app_r_alt by lia. rewrite Nat.sub_diag. cbn [insert list_insert].
    rewrite list_lookup_middle by reflexivity.
    cbn [m_Type assert]. rewrite Z.eqb_refl. unfold ret, after_new, initialized, owned.
    rewrite <- app_assoc. reflexivity.
  - rewrite (AllocateCommandContext_front type p front rest Hr Hq).
    unfold alone, bind. unfold step at 1, bind, get, lift, AvailableContextSize.
    rewrite subscript_recognized by assumption. unfold ret at 1.
    unfold step at 1, bind, get. rewrite Hq. unfold ret at 1.
    unfold step at 1, bind, get. rewrite Hq. unfold ret at 1.
    unfold step at 1, bind, get. rewrite Hq. unfold set_available, ret at 1.
    unfold step at 1, bind.
    destruct (Reset front _) as [[[] p1]|f]; [|reflexivity].
    unfold ret at 1. unfold step, bind, load.
    destruct (heap p1 !! front) as [c|]; [|reflexivity].
    unfold assert. destruct (m_Type c =? type); reflexivity.
Qed.

Lemma alone_FreeCommandContext usedContext p :
  alone 1 (CallFree usedContext) p =
  match FreeCommandContext usedContext p with
  | Ret (_, p') => Ret (Freed, p')
  | Fault f => Fault f
  end.
Proof.
  unfold alone, step, bind.
  destruct (FreeCommandContext usedContext p) as [[[] p']|f]; reflexivity.
Qed.

(** C9 as written fails. Two threads call [AllocateCommandContext] for a
    graphics context while two contexts are idle; each reads the front of
    the idle queue before the other pops it, and both receive context 0
    (context 1 is popped and handed to nobody). *)
Lemma AllocateCommandContext_not_exclusive : ~ hands_out_exclusively.
Proof.
  intros H.
  assert (E : exists p',
             exec both_read_front
               (BindQueue <$> [D3D12_COMMAND_LIST_TYPE_DIRECT; D3D12_COMMAND_LIST_TYPE_DIRECT])
               two_idle = Ret ([Received 0%nat; Received 0%nat], p')).
  { eexists. vm_compute. reflexivity. }
  destruct E as [p' E].
  exact (H two_idle _ _ _ p' serial_two_idle E 0%nat 1%nat 0%nat
           ltac:(discriminate) eq_refl eq_refl).
Qed.

End InterleavedFacts.

(** * Facts about transitions, batching and submission *)

Module BarriersFacts.
Import Barriers.

(** ** The history of barriers *)

Lemma history_FlushResourceBarriers w :
  history (FlushResourceBarriers w) = history w.
Proof.
  unfold history, FlushResourceBarriers. cbn [submitted barrierBuffer].
  rewrite concat_app. cbn [concat]. now rewrite !app_nil_r.
Qed.

Lemma history_flush_if b w : history (flush_if b w) = history w.
Proof. destruct b; [apply history_FlushResourceBarriers | reflexivity]. Qed.

Lemma history_append b w : history (append b w) = history w ++ [b].
Proof. unfold history, append. cbn [submitted barrierBuffer]. now rewrite app_assoc. Qed.

Lemma history_set_resource r g w : history (set_resource r g w) = history w.
Proof. reflexivity. Qed.

Lemma resources_flush_if b w : resources (flush_if b w) = resources w.
Proof. now destruct b. Qed.

Lemma queueType_flush_if b w : queueType (flush_if b w) = queueType w.
Proof. now destruct b. Qed.

Lemma open_split_snoc r bs b :
  open_split r (bs ++ [b]) = after_barrier r (open_split r bs) b.
Proof. unfold open_split. now rewrite fold_left_app. Qed.

Lemma set_resource_same r g w : resources (set_resource r g w) r = g.
Proof. unfold set_resource. cbn [resources]. now rewrite Nat.eqb_refl. Qed.

Lemma set_resource_other r r' g w :
  r' <> r -> resources (set_resource r g w) r' = resources w r'.
Proof.
  intros Hne. unfold set_resource. cbn [resources].
  destruct (Nat.eqb r' r) eqn:E; [apply Nat.eqb_eq in E; contradiction | reflexivity].
Qed.

Lemma split_tracked_flush_if b w : split_tracked w -> split_tracked (flush_if b w).
Proof.
  intros T r t. rewrite resources_flush_if, history_flush_if. apply T.
Qed.

(** Appending a barrier for [r] and writing the bookkeeping of [r] keeps
    the split bookkeeping, when the new [transitioningState] of [r] is the
    split that the barrier leaves open. *)
Lemma split_tracked_emit r b g w :
  resource b = r ->
  (forall t, transitioningState g = Some t ->
             after_barrier r (open_split r (history w)) b = Some t) ->
  split_tracked w ->
  split_tracked (set_resource r g (append b w)).
Proof.
  intros Hb Hg T r' t. rewrite history_set_resource, history_append, open_split_snoc.
  destruct (decide (r' = r)) as [->|Hne].
  - rewrite set_resource_same. apply Hg.
  - rewrite set_resource_other by assumption. cbn [append resources]. intros Ht.
    unfold after_barrier. rewrite Hb.
    destruct (Nat.eqb r r') eqn:E; [apply Nat.eqb_eq in E; congruence|].
    now apply T.
Qed.

Section TransitionFacts.

Variable legal : QueueType -> D3D12_RESOURCE_STATES -> bool.

(** A call with a legal state does not fail, keeps the queue type and
    leaves the resource in the requested state. *)
Lemma TransitionResource_legal r s f w :
  legal (queueType w) s = true ->
  exists w', TransitionResource legal r s f w = (None, w') /\
             queueType w' = queueType w /\
             authoritativeState (resources w' r) = s.
Proof.
  intros Hl. unfold TransitionResource. rewrite Hl. cbn [negb].
  destruct (transitioningState (resources w r)) as [t|] eqn:Ht.
  - destruct (t =? s) eqn:E.
    + eexists. split; [reflexivity|]. rewrite set_resource_same.
      split; [|reflexivity]. cbn [set_resource append queueType].
      apply queueType_flush_if.
    + eexists. split; [reflexivity|]. rewrite queueType_flush_if, resources_flush_if.
      rewrite set_resource_same. split; [|reflexivity].
      cbn [set_resource append queueType]. apply queueType_flush_if.
  - destruct (authoritativeState (resources w r) =? s) eqn:E.
    + exists w. apply Z.eqb_eq in E. auto.
    + eexists. split; [reflexivity|]. rewrite queueType_flush_if, resources_flush_if.
      rewrite set_resource_same. split; [|reflexivity].
      cbn [set_resource append queueType]. apply queueType_flush_if.
Qed.

Lemma TransitionResource_None r s f w w' :
  TransitionResource legal r s f w = (None, w') ->
  legal (queueType w) s = true /\ authoritativeState (resources w' r) = s.
Proof.
  intros H. destruct (legal (queueType w) s) eqn:Hl.
  - split; [reflexivity|].
    destruct (TransitionResource_legal r s f w Hl) as (w1 & H1 & _ & Ha). congruence.
  - unfold TransitionResource in H. rewrite Hl in H. discriminate.
Qed.

Lemma transitions_legal calls w :
  Forall (fun c => legal (queueType w) (snd (fst c)) = true) calls ->
  exists w', transitions legal calls w = (None, w') /\ queueType w' = queueType w.
Proof.
  revert w. induction calls as [|[[r s] f] calls IH]; intros w Hall.
  - exists w. auto.
  - apply Forall_cons in Hall as [Hl Hall]. cbn [fst snd] in Hl.
    destruct (TransitionResource_legal r s f w Hl) as (w1 & H1 & Hq & _).
    cbn [transitions]. rewrite H1.
    destruct (IH w1) as (w' & H' & Hq').
    { rewrite Hq. exact Hall. }
    exists w'. split; [assumption | congruence].
Qed.

Lemma transitions_app calls1 calls2 w :
  transitions legal (calls1 ++ calls2) w =
  match transitions legal calls1 w with
  | (None, w') => transitions legal calls2 w'
  | (Some e, w') => (Some e, w')
  end.
Proof.
  revert w. induction calls1 as [|[[r s] f] calls1 IH]; intros w; [reflexivity|].
  cbn [app transitions]. destruct (TransitionResource legal r s f w) as [[e|] w1].
  - reflexivity.
  - apply IH.
Qed.

Lemma TransitionResource_split_tracked r s f w :
  split_tracked w -> split_tracked (snd (TransitionResource legal r s f w)).
Proof.
  intros T. unfold TransitionResource.
  destruct (negb (legal (queueType w) s)); [exact T|].
  assert (Hfull : forall b,
    split_tracked (flush_if b
      (set_resource r {| authoritativeState := s;
                         transitioningState := transitioningState (resources w r) |}
        (append {| resource := r; fromState := authoritativeState (resources w r);
                   toState := s; mode := Full |}
           (flush_if (Nat.leb capacity (pendingBarrierCount w) || f) w))))).
  { intros b. apply split_tracked_flush_if, split_tracked_emit.
    - reflexivity.
    - cbn [transitioningState]. intros t Ht. unfold after_barrier.
      cbn [resource mode]. rewrite Nat.eqb_refl. rewrite history_flush_if. now apply T.
    - now apply split_tracked_flush_if. }
  destruct (transitioningState (resources w r)) as [t|] eqn:Ht.
  - destruct (t =? s); [|apply Hfull].
    cbn [snd]. apply split_tracked_emit.
    + reflexivity.
    + cbn [transitioningState]. discriminate.
    + now apply split_tracked_flush_if.
  - destruct (authoritativeState (resources w r) =? s); [exact T | apply Hfull].
Qed.

End TransitionFacts.


(** ** Transitions *)

Section TransitionClaims.

Variable legal : QueueType -> D3D12_RESOURCE_STATES -> bool.

(** C1. After any sequence of [TransitionResource] calls on one context,
    none of which failed, the resource of the last call has the state
    that call asked for; and no call fails when every state asked for is
    legal for the queue type.  The bookkeeping is eager: a call that
    appends a Full barrier to a buffer with room leaves that barrier
    pending, last in the buffer and in no submitted batch, and the
    resource already has the new state. *)
Theorem TransitionResource_eager calls r s f w :
  (forall w', transitions legal (calls ++ [(r, s, f)]) w = (None, w') ->
              authoritativeState (resources w' r) = s) /\
  (Forall (fun c => legal (queueType w) (snd (fst c)) = true) (calls ++ [(r, s, f)]) ->
   exists w', transitions legal (calls ++ [(r, s, f)]) w = (None, w')) /\
  (legal (queueType w) s = true ->
   transitioningState (resources w r) = None ->
   authoritativeState (resources w r) <> s ->
   (S (pendingBarrierCount w) < capacity)%nat ->
   exists w1,
     TransitionResource legal r s f w = (None, w1) /\
     barrierBuffer w1 =
       (if f then [] else barrierBuffer w) ++
       [{| resource := r; fromState := authoritativeState (resources w r);
           toState := s; mode := Full |}] /\
     submitted w1 = (if f then submitted w ++ [barrierBuffer w] else submitted w) /\
     authoritativeState (resources w1 r) = s).
Proof.
  split; [|split].
  - intros w'. rewrite transitions_app.
    destruct (transitions legal calls w) as [[e|] w0]; [discriminate|].
    cbn [transitions].
    destruct (TransitionResource legal r s f w0) as [[e|] w1] eqn:H1; [discriminate|].
    intros H. injection H as <-. now apply TransitionResource_None in H1.
  - intros Hall. destruct (transitions_legal legal _ w Hall) as (w' & H' & _). eauto.
  - intros Hl Ht Ha Hroom. unfold TransitionResource. rewrite Hl, Ht. cbn [negb].
    apply Z.eqb_neq in Ha. rewrite Ha.
    unfold capacity, pendingBarrierCount in *.
    assert (Hlt : Nat.leb 16 (length (barrierBuffer w)) = false)
      by (apply Nat.leb_gt; lia).
    rewrite Hlt. cbn [orb]. eexists. split; [reflexivity|].
    assert (Hne : forall b : ResourceBarrier,
              Nat.eqb (length (barrierBuffer w ++ [b])) 16 = false).
    { intros b. apply Nat.eqb_neq. rewrite length_app. cbn [length]. lia. }
    destruct f; simpl.
    + rewrite Nat.eqb_refl. auto.
    + rewrite Hne. simpl. rewrite Nat.eqb_refl. auto.
Qed.

(** C2. With sixteen barriers pending, a [TransitionResource] call that
    appends one, whatever its [flushImmediate], is not an error: it
    submits the sixteen as one batch, once, before the append, and leaves
    exactly the new barrier in the buffer. *)
Theorem TransitionResource_overflow r s f w :
  legal (queueType w) s = true ->
  pendingBarrierCount w = capacity ->
  ~ (transitioningState (resources w r) = None /\ authoritativeState (resources w r) = s) ->
  exists w' b,
    TransitionResource legal r s f w = (None, w') /\
    submitted w' = submitted w ++ [barrierBuffer w] /\
    barrierBuffer w' = [b] /\
    pendingBarrierCount w' = 1%nat /\
    resource b = r /\ toState b = s.
Proof.
  intros Hl Hfull Happ. unfold TransitionResource. rewrite Hl, Hfull. cbn [negb].
  unfold capacity. cbn [Nat.leb orb flush_if].
  destruct (transitioningState (resources w r)) as [t|] eqn:Ht.
  - destruct (t =? s); do 2 eexists; (split; [reflexivity|]);
      cbn; auto.
  - destruct (authoritativeState (resources w r) =? s) eqn:E.
    + apply Z.eqb_eq in E. exfalso. apply Happ. auto.
    + do 2 eexists. split; [reflexivity|]. cbn. auto.
Qed.

(** C3. A [TransitionResource] call for a state that is not legal for the
    queue type of the context fails with [UnsupportedTransition] and
    leaves the context as it was: the same buffer, the same pending
    count, the same resources and submitted batches. *)
Theorem TransitionResource_illegal r s f w :
  legal (queueType w) s = false ->
  TransitionResource legal r s f w = (Some UnsupportedTransition, w) /\
  barrierBuffer (snd (TransitionResource legal r s f w)) = barrierBuffer w /\
  pendingBarrierCount (snd (TransitionResource legal r s f w)) = pendingBarrierCount w.
Proof.
  intros Hl. unfold TransitionResource. rewrite Hl. cbn [negb snd]. auto.
Qed.

(** C4. The operations keep the split bookkeeping: wherever
    [transitioningState] is set, the last split barrier emitted for that
    resource is a BeginSplit to that state, not yet ended.  A call that
    does not fail and whose [newState] is the open [transitioningState]
    emits an EndSplit entry, clears [transitioningState] and sets
    [authoritativeState] to the target (and it does not fail when the
    state is legal); a call whose [newState] is the [authoritativeState],
    with no split open, changes nothing. *)
Theorem split_bookkeeping r s f w :
  (split_tracked w ->
     split_tracked (snd (TransitionResource legal r s f w)) /\
     split_tracked (FlushResourceBarriers w) /\
     (forall wait qs, split_tracked (snd (Flush wait qs w))) /\
     (forall wait releaseDynamic qs fence qs' w',
        Finish wait releaseDynamic qs w = Ret (fence, qs', w') -> split_tracked w')) /\
  (transitioningState (resources w r) = Some s ->
   (legal (queueType w) s = true ->
    exists w', TransitionResource legal r s f w = (None, w')) /\
   (forall w', TransitionResource legal r s f w = (None, w') ->
     last (barrierBuffer w') =
       Some {| resource := r; fromState := authoritativeState (resources w r);
               toState := s; mode := EndSplit |} /\
     transitioningState (resources w' r) = None /\
     authoritativeState (resources w' r) = s /\
     open_split r (history w') = None)) /\
  (transitioningState (resources w r) = None ->
   authoritativeState (resources w r) = s ->
   snd (TransitionResource legal r s f w) = w /\
   pendingBarrierCount (snd (TransitionResource legal r s f w)) = pendingBarrierCount w /\
   (legal (queueType w) s = true -> TransitionResource legal r s f w = (None, w))).
Proof.
  split; [|split].
  - intros T. split; [now apply TransitionResource_split_tracked|].
    assert (HF : split_tracked (FlushResourceBarriers w))
      by exact (split_tracked_flush_if true w T).
    split; [exact HF|]. split.
    + intros wait qs. exact HF.
    + intros wait releaseDynamic qs fence qs' w' H. unfold Finish in H.
      destruct (isRecording w); [|discriminate].
      destruct (submit (queueType w) qs) as [fence0 qs0].
      injection H as _ _ <-. exact HF.
  - intros Ht. split.
    + intros Hl. destruct (TransitionResource_legal legal r s f w Hl) as (w' & H' & _). eauto.
    + intros w' H. unfold TransitionResource in H.
      destruct (negb (legal (queueType w) s)); [discriminate|].
      rewrite Ht, Z.eqb_refl in H. injection H as <-. rewrite set_resource_same.
      cbn [set_resource append barrierBuffer transitioningState authoritativeState].
      rewrite last_snoc. repeat split.
      rewrite history_set_resource, history_append, open_split_snoc.
      unfold after_barrier. cbn [resource mode]. now rewrite Nat.eqb_refl.
  - intros Ht Ha. unfold TransitionResource. rewrite Ht.
    apply Z.eqb_eq in Ha. rewrite Ha.
    destruct (legal (queueType w) s); cbn [negb snd]; auto.
    repeat split. discriminate.
Qed.

End TransitionClaims.

Lemma TransitionResource_eager_witness :
  exists w',
    transitions example_rules
      ([(0%nat, D3D12_RESOURCE_STATE_COPY_DEST, true);
        (1%nat, D3D12_RESOURCE_STATE_NON_PIXEL_SHADER_RESOURCE, false)] ++
       [(0%nat, D3D12_RESOURCE_STATE_COPY_SOURCE, false)])
      (fresh Compute D3D12_RESOURCE_STATE_UNORDERED_ACCESS) = (None, w') /\
    authoritativeState (resources w' 0%nat) = D3D12_RESOURCE_STATE_COPY_SOURCE.
Proof.
  pose proof (TransitionResource_eager example_rules
            [(0%nat, D3D12_RESOURCE_STATE_COPY_DEST, true);
             (1%nat, D3D12_RESOURCE_STATE_NON_PIXEL_SHADER_RESOURCE, false)]
            0%nat D3D12_RESOURCE_STATE_COPY_SOURCE false
            (fresh Compute D3D12_RESOURCE_STATE_UNORDERED_ACCESS)) as (Hstate & Hruns & _).
  destruct Hruns as [w' H'].
  - repeat (constructor; [reflexivity|]). constructor.
  - exists w'. split; [exact H' | exact (Hstate w' H')].
Defined.

Lemma TransitionResource_overflow_witness :
  exists w' b,
    TransitionResource example_rules 20 D3D12_RESOURCE_STATE_RENDER_TARGET true full_buffer
      = (None, w') /\
    submitted w' = submitted full_buffer ++ [barrierBuffer full_buffer] /\
    barrierBuffer w' = [b] /\
    pendingBarrierCount w' = 1%nat /\
    resource b = 20%nat /\ toState b = D3D12_RESOURCE_STATE_RENDER_TARGET.
Proof.
  apply (TransitionResource_overflow example_rules 20
           D3D12_RESOURCE_STATE_RENDER_TARGET true full_buffer).
  - reflexivity.
  - reflexivity.
  - intros [_ H]. discriminate H.
Defined.

Lemma TransitionResource_illegal_witness :
  TransitionResource example_rules 0 D3D12_RESOURCE_STATE_UNORDERED_ACCESS true
    (fresh Copy D3D12_RESOURCE_STATE_COPY_DEST)
  = (Some UnsupportedTransition, fresh Copy D3D12_RESOURCE_STATE_COPY_DEST) /\
  TransitionResource example_rules 0 D3D12_RESOURCE_STATE_RENDER_TARGET false
    (fresh Compute D3D12_RESOURCE_STATE_COPY_DEST)
  = (Some UnsupportedTransition, fresh Compute D3D12_RESOURCE_STATE_COPY_DEST).
Proof.
  split.
  - exact (proj1 (TransitionResource_illegal example_rules 0
             D3D12_RESOURCE_STATE_UNORDERED_ACCESS true
             (fresh Copy D3D12_RESOURCE_STATE_COPY_DEST) eq_refl)).
  - exact (proj1 (TransitionResource_illegal example_rules 0
             D3D12_RESOURCE_STATE_RENDER_TARGET false
             (fresh Compute D3D12_RESOURCE_STATE_COPY_DEST) eq_refl)).
Defined.

Lemma split_tracked_split_open_on_5 : split_tracked split_open_on_5.
Proof.
  intros r t. unfold split_open_on_5. cbn [resources].
  destruct (Nat.eqb r 5) eqn:E.
  - apply Nat.eqb_eq in E as ->. cbn [transitioningState]. intros H. exact H.
  - discriminate.
Qed.

Lemma split_bookkeeping_witness :
  split_tracked
    (snd (TransitionResource example_rules 5 D3D12_RESOURCE_STATE_RENDER_TARGET false
            split_open_on_5)) /\
  (exists w',
     TransitionResource example_rules 5 D3D12_RESOURCE_STATE_RENDER_TARGET false
       split_open_on_5 = (None, w') /\
     last (barrierBuffer w') =
       Some {| resource := 5; fromState := D3D12_RESOURCE_STATE_COMMON;
               toState := D3D12_RESOURCE_STATE_RENDER_TARGET; mode := EndSplit |} /\
     transitioningState (resources w' 5%nat) = None /\
     authoritativeState (resources w' 5%nat) = D3D12_RESOURCE_STATE_RENDER_TARGET /\
     open_split 5 (history w') = None) /\
  TransitionResource example_rules 7 D3D12_RESOURCE_STATE_COMMON true split_open_on_5
    = (None, split_open_on_5).
Proof.
  split; [|split].
  - exact (proj1 (proj1 (split_bookkeeping example_rules 5
             D3D12_RESOURCE_STATE_RENDER_TARGET false split_open_on_5)
             split_tracked_split_open_on_5)).
  - pose proof (proj1 (proj2 (split_bookkeeping example_rules 5
             D3D12_RESOURCE_STATE_RENDER_TARGET false split_open_on_5)) eq_refl)
      as [Hruns Hends].
    destruct (Hruns eq_refl) as [w' H']. exists w'. split; [exact H' | exact (Hends w' H')].
  - exact (proj2 (proj2 (proj2 (proj2 (split_bookkeeping example_rules 7
             D3D12_RESOURCE_STATE_COMMON true split_open_on_5))
             eq_refl eq_refl)) eq_refl).
Defined.

(** ** The worked examples of the specification *)

(** "Resource R is in state UNORDERED_ACCESS; TransitionResource(R,
    COPY_DEST) appends one Full barrier; a following TransitionResource(R,
    COPY_DEST) is a no-op (buffer count stays at 1)", with the default
    [flushImmediate]. *)
Example redundant_transition :
  let w0 := fresh Graphics D3D12_RESOURCE_STATE_UNORDERED_ACCESS in
  let w1 := snd (TransitionResource example_rules 0 D3D12_RESOURCE_STATE_COPY_DEST true w0) in
  fst (TransitionResource example_rules 0 D3D12_RESOURCE_STATE_COPY_DEST true w0) = None /\
  barrierBuffer w1 =
    [{| resource := 0; fromState := D3D12_RESOURCE_STATE_UNORDERED_ACCESS;
        toState := D3D12_RESOURCE_STATE_COPY_DEST; mode := Full |}] /\
  TransitionResource example_rules 0 D3D12_RESOURCE_STATE_COPY_DEST true w1 = (None, w1) /\
  pendingBarrierCount w1 = 1%nat.
Proof. repeat split. Qed.

(** With the flush for [flushImmediate] after the append, the same two
    calls leave nothing in the buffer: the example fixes the placement
    that [TransitionResource] has. *)
Example redundant_transition_flushing_last :
  let w0 := fresh Graphics D3D12_RESOURCE_STATE_UNORDERED_ACCESS in
  let w1 := snd (TransitionResource_flushing_last example_rules 0
                   D3D12_RESOURCE_STATE_COPY_DEST true w0) in
  pendingBarrierCount w1 = 0%nat /\
  pendingBarrierCount
    (snd (TransitionResource_flushing_last example_rules 0
            D3D12_RESOURCE_STATE_COPY_DEST true w1)) = 0%nat.
Proof. repeat split. Qed.

(** "On a Copy-type context, TransitionResource(R, UNORDERED_ACCESS) fails
    with UnsupportedTransition; the buffer remains at its prior count." *)
Example copy_context_rejects_unordered_access :
  let w0 := fresh Copy D3D12_RESOURCE_STATE_COMMON in
  let w1 := snd (TransitionResource example_rules 0 D3D12_RESOURCE_STATE_COPY_DEST true w0) in
  pendingBarrierCount w1 = 1%nat /\
  fst (TransitionResource example_rules 0 D3D12_RESOURCE_STATE_UNORDERED_ACCESS true w1)
    = Some UnsupportedTransition /\
  pendingBarrierCount
    (snd (TransitionResource example_rules 0 D3D12_RESOURCE_STATE_UNORDERED_ACCESS true w1))
    = 1%nat.
Proof. repeat split. Qed.

(** ** Fence values *)

Lemma uint64_succ_below n : (uint64_succ n < uint64_modulus)%N.
Proof. unfold uint64_succ. apply N.mod_lt. discriminate. Qed.









End BarriersFacts.
